(** * DonutSlicer: a shallow embedding of the Power BI donut visual

    The development follows the revision of [donutSlicer.ts] that has
    [visualTransform], the arcs and the legend.

    - Numbers come in two models.  Parts I and II have them as exact
      real numbers: this serves the properties that do not depend on
      the size of a number (which elements are drawn and in which
      order, which values are copied, which colours are given, when
      [update] throws).  Part III has the layout and the arcs on IEEE
      754 binary64 numbers, as the program computes them; what is
      said about the size of an angle is said there.
    - A call that raises a JavaScript [TypeError] is an explicit
      [Throw]; the drawable surface is threaded through [update] as a
      value, so what was drawn before an exception is still visible.
    - The d3 functions the visual calls ([d3.layout.pie],
      [d3.scale.category20b], the data join) are not part of the
      repository; they are written here after d3 3.5, the release line
      that has [d3.layout], [d3.svg] and [d3.scale]. *)

From Stdlib Require Import String DecimalString.
From Stdlib Require Import ZArith Floats.
From Stdlib Require Uint63.
From Stdlib Require Import Reals Lra Lia List Arith Permutation Sorted.
Import ListNotations.

Open Scope string_scope.
Open Scope list_scope.
Open Scope R_scope.

(** * Part I: the program *)

(** ** Completions of JavaScript code *)

Inductive completion (A : Type) : Type :=
| Return (a : A)
| Throw.

Arguments Return {A} a.
Arguments Throw {A}.

(** ** Host interface (VisualUpdateOptions) *)

(** A table row: [slice[0]] is the count, [slice[1]] the category, with
    the types the view model declares for them ([number], [string]).
    [None] stands for a category that is [null] or [undefined]. *)
Record DataViewTableRow : Type := {
  slice0 : R;
  slice1 : option string
}.

Record DataViewTable : Type := {
  rows : option (list DataViewTableRow)
}.

Record DataViewMetadata : Type := {
  objects : option unit
}.

(** [metadata] is a required member of a data view, [table] an
    optional one. *)
Record DataView : Type := {
  metadata : DataViewMetadata;
  table : option DataViewTable
}.

Record IViewport : Type := {
  width : R;
  height : R
}.

Record VisualUpdateOptions : Type := {
  viewport : IViewport;
  dataViews : option (list (option DataView))
}.

(** ** View model *)

Record DonutSlicerDataPoint : Type := {
  count : R;
  category : string
}.

Record DonutSlicerViewModel : Type := {
  dataPoints : list DonutSlicerDataPoint
}.

(** The body of the [for ... of] loop, [if (slice[1]) push(...)]: a
    string is truthy unless it is empty; [null] and [undefined] are
    falsy. *)
Definition push_slice (donutDataPoints : list DonutSlicerDataPoint)
    (slice : DataViewTableRow) : list DonutSlicerDataPoint :=
  match slice1 slice with
  | Some (String a s) =>
      donutDataPoints ++ [{| count := slice0 slice; category := String a s |}]
  | Some EmptyString | None => donutDataPoints
  end.

(** [visualTransform(options, host)]; [host] is not used.
    [Return None] is the [null] result, [Throw] the [TypeError] of
    reading [.rows] of an absent table or of iterating an absent
    [rows]. *)
Definition visualTransform (options : option VisualUpdateOptions)
    : completion (option DonutSlicerViewModel) :=
  match options with
  | None => Return None
  | Some o =>
      match dataViews o with
      | None => Return None
      | Some dvs =>
          match nth_error dvs 0 with
          | None | Some None => Return None
          | Some (Some dv0) =>
              let _objects := objects (metadata dv0) in
              match table dv0 with
              | None => Throw
              | Some t =>
                  match rows t with
                  | None => Throw
                  | Some rs =>
                      let donutDataPoints := fold_left push_slice rs [] in
                      Return (Some {| dataPoints := donutDataPoints |})
                  end
              end
          end
      end
  end.

(** ** d3 3.5: arrays, [d3.sum], [Array.prototype.sort] *)

(** [arr[i] = x] on a JavaScript array: assigning past the end extends
    the array and leaves holes ([None]) in between. *)
Fixpoint array_set {A : Type} (arr : list (option A)) (i : nat) (x : A)
    : list (option A) :=
  match i, arr with
  | O, [] => [Some x]
  | O, _ :: t => Some x :: t
  | S i', [] => None :: array_set [] i' x
  | S i', h :: t => h :: array_set t i' x
  end.

(** All the entries of an array, when it has no hole. *)
Fixpoint defined {A : Type} (arr : list (option A)) : option (list A) :=
  match arr with
  | [] => Some []
  | None :: _ => None
  | Some x :: t =>
      match defined t with
      | Some l => Some (x :: l)
      | None => None
      end
  end.

(** [d3.sum(values)]. *)
Definition d3_sum (values : list R) : R := fold_left Rplus values 0.

(** [index.sort(function(i, j) { return values[j] - values[i]; })]:
    [i] stays ahead of [j] when the comparator is not positive.  The
    sort is written as a stable insertion sort; which of two equal
    values comes first is the one thing an engine may decide
    differently. *)
Fixpoint sort_insert (values : list R) (i : nat) (sorted : list nat)
    : list nat :=
  match sorted with
  | [] => [i]
  | j :: rest =>
      if Rle_dec (nth j values 0 - nth i values 0) 0
      then i :: j :: rest
      else j :: sort_insert values i rest
  end.

Definition sort_by_value (values : list R) (index : list nat) : list nat :=
  fold_right (sort_insert values) [] index.

(** ** d3 3.5: [d3.layout.pie] *)

Record ArcDescriptor : Type := {
  data : R;
  value : R;
  startAngle : R;
  endAngle : R;
  padAngle : R
}.

(** d3's [τ]. *)
Definition tau : R := 2 * PI.

(** One step of [index.forEach]:
    [arcs[i] = {data: data[i], value: v = values[i], startAngle: a,
    endAngle: a += v * k + pa, padAngle: p}].  The value accessor is
    the identity, so [data[i]] is [values[i]]. *)
Definition pie_step (values : list R) (k pa p : R)
    (st : R * list (option ArcDescriptor)) (i : nat)
    : R * list (option ArcDescriptor) :=
  let a := fst st in
  let v := nth i values 0 in
  let a' := a + (v * k + pa) in
  (a', array_set (snd st) i
         {| data := nth i values 0; value := v;
            startAngle := a; endAngle := a'; padAngle := p |}).

(** [d3.layout.pie().value(function(d) { return d; })] applied to
    [data]: the default start angle 0, end angle [τ], pad angle 0 and
    the default sort, by descending value.  [Math.abs(da) / n] is
    [Infinity] for [n = 0], and [Math.min(Infinity, 0)] is 0.  The
    factor [k] is written as [sum ? (da - n * pa) / sum : 0], as the
    later releases of d3 3.5 have it; on real numbers an unguarded
    division cannot be told from it, and the properties that depend
    on the factor are stated on [pie_double] of Part III. *)
Definition pie (data : list R) : list (option ArcDescriptor) :=
  let n := length data in
  let values := data in
  let a := 0 in
  let da := tau - a in
  let p := match n with
           | O => 0
           | _ => Rmin (Rabs da / INR n) 0
           end in
  let pa := p * (if Rlt_dec da 0 then -1 else 1) in
  let sum := d3_sum values in
  let k := if Req_dec_T sum 0 then 0 else (da - INR n * pa) / sum in
  let index := sort_by_value values (seq 0 n) in
  snd (fold_left (pie_step values k pa p) index (a, [])).

(** ** d3 3.5: ordinal colour scale [d3.scale.category20b] *)

Definition d3_category20b : list string :=
  [ "#393b79"; "#5254a3"; "#6b6ecf"; "#9c9ede";
    "#637939"; "#8ca252"; "#b5cf6b"; "#cedb9c";
    "#8c6d31"; "#bd9e39"; "#e7ba52"; "#e7cb94";
    "#843c39"; "#ad494a"; "#d6616b"; "#e7969c";
    "#7b4173"; "#a55194"; "#ce6dbd"; "#de9ed6" ].

(** An ordinal scale: the domain grows as new inputs are seen.  The
    visual only ever passes element indices. *)
Record ordinal : Type := {
  domain : list nat;
  range : list string
}.

(** [index.get(x)]: the 1-based position of [x] in the domain. *)
Fixpoint index_get (dom : list nat) (x : nat) : option nat :=
  match dom with
  | [] => None
  | y :: t => if Nat.eqb y x then Some 1%nat else option_map S (index_get t x)
  end.

(** [scale(x)]:
    [range[((index.get(x) || index.set(x, domain.push(x))) - 1) % range.length]]. *)
Definition scale (s : ordinal) (x : nat) : string * ordinal :=
  let '(i, s') :=
    match index_get (domain s) x with
    | Some i => (i, s)
    | None =>
        let dom := domain s ++ [x] in
        (length dom, {| domain := dom; range := range s |})
    end in
  (nth ((i - 1) mod length (range s)) (range s) "undefined", s').

(** [d3.scale.category20b()]: a fresh scale with an empty domain. *)
Definition category20b : ordinal :=
  {| domain := []; range := d3_category20b |}.

(** ** The drawable surface *)

(** A [path] element.  Its [d] attribute is the string [arc(datum)];
    it is held here as what determines it: the datum and the two radii
    the arc generator was configured with. *)
Record PathElement : Type := {
  path_data : ArcDescriptor;
  innerRadius : R;
  outerRadius : R;
  fill : string
}.

Record RectElement : Type := {
  rect_width : R;
  rect_height : R;
  rect_fill : string;
  rect_stroke : string
}.

Record TextElement : Type := {
  text_x : R;
  text_y : R;
  text : string
}.

(** A [g.legend] element; [legend_transform] is the pair in its
    [translate(horz,vert)]. *)
Record LegendElement : Type := {
  legend_data : nat;
  legend_transform : R * R;
  legend_rect : RectElement;
  legend_text : TextElement
}.

(** A [g] element appended by [update]. *)
Record GElement : Type := {
  g_transform : R * R;
  paths : list PathElement;
  legends : list LegendElement
}.

Record SvgElement : Type := {
  attr_width : option R;
  attr_height : option R;
  children : list GElement
}.

(** The constructor: [d3.select(options.element).append('svg')]. *)
Definition constructor : SvgElement :=
  {| attr_width := None; attr_height := None; children := [] |}.

(** A selection operator whose callback reads and updates the colour
    scale, run over the elements in document order. *)
Fixpoint each {A B : Type} (f : ordinal -> A -> B * ordinal)
    (color : ordinal) (l : list A) : list B * ordinal :=
  match l with
  | [] => ([], color)
  | x :: t =>
      let '(y, color1) := f color x in
      let '(ys, color2) := each f color1 t in
      (y :: ys, color2)
  end.

(** Elements paired with their index in the selection. *)
Definition indexed {A : Type} (l : list A) : list (nat * A) :=
  combine (seq 0 (length l)) l.

(** [String(i)] for an index. *)
Definition string_of_index (i : nat) : string :=
  NilEmpty.string_of_uint (Nat.to_uint i).

(** ** [DonutSlicer.update] *)

Definition donutWidth : R := 50.
Definition legendRectSize : R := 18.
Definition legendSpacing : R := 4.

(** The [transform] callback of a legend row. *)
Definition legend_translate (color : ordinal) (i : nat) : R * R :=
  let height := legendRectSize + legendSpacing in
  let offset := height * INR (length (domain color)) / 2 in
  let horz := -2 * legendRectSize in
  let vert := INR i * height - offset in
  (horz, vert).

(** The part of [update] that follows the call of [visualTransform].
    The group [donut] is appended to the surface before
    [viewModel.dataPoints] is read, which throws on a null view model.
    The second [Throw] stands for the arc generator meeting a hole in
    the array of arcs; [pie_arcs_defined] shows there is none. *)
Definition render (svg : SvgElement) (viewModel : option DonutSlicerViewModel)
    (vp : IViewport) : SvgElement * completion unit :=
  let width := width vp in
  let height := height vp in
  let radius := Rmin width height / 2 in
  let color := category20b in
  let arc_innerRadius := radius - donutWidth in
  let arc_outerRadius := radius in
  let donut_transform := (width / 2, height / 2) in
  let surface (donut : GElement) :=
    {| attr_width := Some width; attr_height := Some height;
       children := children svg ++ [donut] |} in
  let empty_donut :=
    {| g_transform := donut_transform; paths := []; legends := [] |} in
  match viewModel with
  | None => (surface empty_donut, Throw)
  | Some vm =>
      match defined (pie (map count (dataPoints vm))) with
      | None => (surface empty_donut, Throw)
      | Some arcs =>
          let '(fills, color1) :=
            each (fun c '(i, _) => scale c i) color (indexed arcs) in
          let path :=
            map (fun '(d, f) =>
                   {| path_data := d; innerRadius := arc_innerRadius;
                      outerRadius := arc_outerRadius; fill := f |})
                (combine arcs fills) in
          let legend_data := domain color1 in
          let '(rect_fills, color2) := each scale color1 legend_data in
          let '(rect_strokes, color3) := each scale color2 legend_data in
          let legend :=
            map (fun '(i, d, (f, s)) =>
                   {| legend_data := d;
                      legend_transform := legend_translate color1 i;
                      legend_rect :=
                        {| rect_width := legendRectSize;
                           rect_height := legendRectSize;
                           rect_fill := f; rect_stroke := s |};
                      legend_text :=
                        {| text_x := legendRectSize + legendSpacing;
                           text_y := legendRectSize;
                           text := string_of_index d |} |})
                (combine (indexed legend_data) (combine rect_fills rect_strokes)) in
          (surface {| g_transform := donut_transform;
                      paths := path; legends := legend |},
           Return tt)
      end
  end.

(** [update(options)]: [visualTransform] runs first; reading
    [options.viewport] of an absent [options] throws. *)
Definition update (svg : SvgElement) (options : option VisualUpdateOptions)
    : SvgElement * completion unit :=
  match visualTransform options with
  | Throw => (svg, Throw)
  | Return viewModel =>
      match options with
      | None => (svg, Throw)
      | Some o => render svg viewModel (viewport o)
      end
  end.

(** * Part II: notions used to state the properties *)

(** ** The builder *)

(** The first entry of the data-view collection, when the update, the
    collection and the entry are all present. *)
Definition first_data_view (options : option VisualUpdateOptions)
    : option DataView :=
  match options with
  | Some o =>
      match dataViews o with
      | Some (Some dv :: _) => Some dv
      | _ => None
      end
  | None => None
  end.

(** The rows of the table of the first data view. *)
Definition table_rows (options : option VisualUpdateOptions)
    : option (list DataViewTableRow) :=
  match first_data_view options with
  | Some dv =>
      match table dv with
      | Some t => rows t
      | None => None
      end
  | None => None
  end.

(** The three ways of having nothing to render. *)
Definition update_absent (options : option VisualUpdateOptions) : Prop :=
  options = None.

Definition data_views_absent (options : option VisualUpdateOptions) : Prop :=
  exists o, options = Some o /\ dataViews o = None.

Definition first_entry_absent (options : option VisualUpdateOptions) : Prop :=
  exists o dvs, options = Some o /\ dataViews o = Some dvs /\
    (nth_error dvs 0 = None \/ nth_error dvs 0 = Some None).

(** The filter in the words of the specification: a row is dropped
    when its category is absent or empty. *)
Definition absent_or_empty (c : option string) : bool :=
  match c with
  | None => true
  | Some s => String.eqb s ""
  end.

Definition data_point_of (r : DataViewTableRow) : DonutSlicerDataPoint :=
  {| count := slice0 r;
     category := match slice1 r with Some s => s | None => "" end |}.

Definition kept_rows (rs : list DataViewTableRow) : list DonutSlicerDataPoint :=
  map data_point_of (filter (fun r => negb (absent_or_empty (slice1 r))) rs).

(** ** Arrays and the pie layout *)

(** Reading [arr[i]]: a hole and an index past the end both give
    [undefined]. *)
Definition array_get {A : Type} (arr : list (option A)) (i : nat) : option A :=
  match nth_error arr i with
  | Some (Some x) => Some x
  | _ => None
  end.

(** [i] is laid out no later than [j]: its value is at least as
    large. *)
Definition value_ge (values : list R) (i j : nat) : Prop :=
  nth j values 0 <= nth i values 0.

(** The angular span of an arc. *)
Definition span (d : ArcDescriptor) : R := endAngle d - startAngle d.

(** Arcs that follow one another around the circle from angle [a]. *)
Fixpoint chained (a : R) (l : list ArcDescriptor) : Prop :=
  match l with
  | [] => True
  | d :: t => startAngle d = a /\ chained (endAngle d) t
  end.

(** The arcs in the order [index.forEach] makes them. *)
Fixpoint laid_out (values : list R) (k pa p a : R) (index : list nat)
    : list ArcDescriptor :=
  match index with
  | [] => []
  | i :: rest =>
      let v := nth i values 0 in
      let a' := a + (v * k + pa) in
      {| data := v; value := v; startAngle := a; endAngle := a';
         padAngle := p |} :: laid_out values k pa p a' rest
  end.

(** The factor by which the layout scales a value. *)
Definition pie_factor (values : list R) : R :=
  if Req_dec_T (d3_sum values) 0 then 0 else tau / d3_sum values.

(** The order in which the layout walks the data. *)
Definition pie_order (values : list R) : list nat :=
  sort_by_value values (seq 0 (length values)).

(** The arcs of the layout as a list without holes. *)
Definition pie_arcs (values : list R) : list ArcDescriptor :=
  match defined (pie values) with
  | Some arcs => arcs
  | None => []
  end.

(** Degrees in radians. *)
Definition degrees (x : R) : R := x * PI / 180.

(** ** Colours and drawn elements *)

(** Entry [i mod length r] of a range of colours. *)
Definition color_at (r : list string) (i : nat) : string :=
  nth (i mod length r) r "undefined".

(** Entry [i mod 20] of the palette. *)
Definition palette_color (i : nat) : string := color_at d3_category20b i.

Definition path_of (vp : IViewport) (i : nat) (d : ArcDescriptor) : PathElement :=
  {| path_data := d;
     innerRadius := Rmin (width vp) (height vp) / 2 - donutWidth;
     outerRadius := Rmin (width vp) (height vp) / 2;
     fill := palette_color i |}.

Definition legend_of (n i : nat) : LegendElement :=
  {| legend_data := i;
     legend_transform :=
       (-2 * legendRectSize,
        INR i * (legendRectSize + legendSpacing)
        - (legendRectSize + legendSpacing) * INR n / 2);
     legend_rect :=
       {| rect_width := legendRectSize; rect_height := legendRectSize;
          rect_fill := palette_color i; rect_stroke := palette_color i |};
     legend_text :=
       {| text_x := legendRectSize + legendSpacing; text_y := legendRectSize;
          text := string_of_index i |} |}.

(** The group one call appends for the data points [dps]. *)
Definition donut_of (dps : list DonutSlicerDataPoint) (vp : IViewport) : GElement :=
  let arcs := pie_arcs (map count dps) in
  {| g_transform := (width vp / 2, height vp / 2);
     paths := map (fun '(i, d) => path_of vp i d) (indexed arcs);
     legends := map (legend_of (length arcs)) (seq 0 (length arcs)) |}.

(** The surface [svg] after one completed call: resized to the
    viewport, with the group [g] appended after what was there. *)
Definition appended (svg : SvgElement) (vp : IViewport) (g : GElement)
    : SvgElement :=
  {| attr_width := Some (width vp); attr_height := Some (height vp);
     children := children svg ++ [g] |}.

(** ** Sample inputs *)

Definition viewport_200 : IViewport := {| width := 200; height := 200 |}.

Definition no_objects : DataViewMetadata := {| objects := None |}.

(** Options whose first data view holds the table [rs]. *)
Definition options_record (vp : IViewport) (rs : list DataViewTableRow)
    : VisualUpdateOptions :=
  {| viewport := vp;
     dataViews :=
       Some [Some {| metadata := no_objects;
                     table := Some {| rows := Some rs |} |}] |}.

Definition options_of (vp : IViewport) (rs : list DataViewTableRow)
    : option VisualUpdateOptions :=
  Some (options_record vp rs).

(** Options whose first data view has no table. *)
Definition options_without_table : option VisualUpdateOptions :=
  Some {| viewport := viewport_200;
          dataViews := Some [Some {| metadata := no_objects; table := None |}] |}.

(** An update record without data views: the builder returns [null]. *)
Definition options_without_data : option VisualUpdateOptions :=
  Some {| viewport := viewport_200; dataViews := None |}.

Definition points_ABCD : list DonutSlicerDataPoint :=
  [ {| count := 10; category := "A" |};
    {| count := 20; category := "B" |};
    {| count := 30; category := "C" |};
    {| count := 40; category := "D" |} ].

Definition rows_AB : list DataViewTableRow :=
  [ {| slice0 := 10; slice1 := Some "A" |};
    {| slice0 := 20; slice1 := Some "B" |} ].

Definition rows_A : list DataViewTableRow :=
  [ {| slice0 := 10; slice1 := Some "A" |} ].

Definition rows_mixed : list DataViewTableRow :=
  [ {| slice0 := 0; slice1 := Some "X" |};
    {| slice0 := 5; slice1 := Some "" |};
    {| slice0 := 7; slice1 := None |};
    {| slice0 := 3; slice1 := Some "Y" |} ].

Definition points_XY : list DonutSlicerDataPoint :=
  [ {| count := 0; category := "X" |}; {| count := 0; category := "Y" |} ].

(** A surface on which one donut has been drawn. *)
Definition drawn_once : SvgElement :=
  appended constructor viewport_200 (donut_of points_ABCD viewport_200).

(** ** The claims that do not hold as they are worded *)

(** C2 for one update record: [null] exactly when something is absent,
    a view model in every other case. *)
Definition null_iff_absent_else_view_model
    (options : option VisualUpdateOptions) : Prop :=
  (visualTransform options = Return None <->
   update_absent options \/ data_views_absent options \/
   first_entry_absent options) /\
  (~ (update_absent options \/ data_views_absent options \/
      first_entry_absent options) ->
   exists vm, visualTransform options = Return (Some vm)).

(** C4 for one table: arc [i] and legend row [i] belong to data point
    [i], and the arcs are not reordered by value, that is, going round
    the circle from angle 0 they come in the order of the data
    points. *)
Definition drawn_in_input_order (svg : SvgElement) (vp : IViewport)
    (rs : list DataViewTableRow) : Prop :=
  exists g,
    update svg (options_of vp rs) = (appended svg vp g, Return tt) /\
    map (fun pth => value (path_data pth)) (paths g) = map count (kept_rows rs) /\
    map legend_data (legends g) = seq 0 (length (kept_rows rs)) /\
    chained 0 (map path_data (paths g)).

(** C5 for one call: spans of 0 and no arc drawn. *)
Definition zero_sum_draws_no_arc (svg : SvgElement) (vm : DonutSlicerViewModel)
    (vp : IViewport) : Prop :=
  exists g,
    render svg (Some vm) vp = (appended svg vp g, Return tt) /\
    Forall (fun pth => span (path_data pth) = 0) (paths g) /\
    paths g = [].

(** C9 for one input: the surface after a second identical call is the
    surface after the first. *)
Definition second_render_adds_nothing (svg : SvgElement)
    (vm : DonutSlicerViewModel) (vp : IViewport) : Prop :=
  fst (render (fst (render svg (Some vm) vp)) (Some vm) vp) =
  fst (render svg (Some vm) vp).

(** ** Notions for the further properties *)

(** The surface after the host has called [update] with each of the
    options in turn; a call that throws leaves what it had done. *)
Definition updates (svg : SvgElement) (l : list (option VisualUpdateOptions))
    : SvgElement :=
  fold_left (fun s o => fst (update s o)) l svg.

(** The group [update] has appended when reading a null view model
    throws. *)
Definition empty_group (vp : IViewport) : GElement :=
  {| g_transform := (width vp / 2, height vp / 2); paths := []; legends := [] |}.

(** ** The snapshot of the visual with hard-coded data

    An earlier state of the file: [update] draws four fixed data
    points and sets each [fill] to [Math.random()]; there is no view
    model builder and no legend. *)

(** A [path] element whose [fill] attribute was set to a number. *)
Record RandomPathElement : Type := {
  rpath_data : ArcDescriptor;
  rpath_innerRadius : R;
  rpath_outerRadius : R;
  rpath_fill : R
}.

Record RandomGElement : Type := {
  rg_transform : R * R;
  rg_paths : list RandomPathElement
}.

Record RandomSvgElement : Type := {
  rattr_width : option R;
  rattr_height : option R;
  rchildren : list RandomGElement
}.

(** [let data: DonutSlicerDataPoint[] = [...]]. *)
Definition snapshot_data : list DonutSlicerDataPoint :=
  [ {| count := 10; category := "Abulia" |};
    {| count := 20; category := "Betelgeuse" |};
    {| count := 30; category := "Cantaloupe" |};
    {| count := 40; category := "Dijkstra" |} ].

(** The [fill] callback run over the elements in document order:
    [random] is the sequence of numbers [Math.random] yields and
    [drawn] how many of them have been taken. *)
Fixpoint each_random {A : Type} (random : nat -> R) (drawn : nat) (l : list A)
    : list R * nat :=
  match l with
  | [] => ([], drawn)
  | _ :: t =>
      let y := random drawn in
      let '(ys, drawn') := each_random random (S drawn) t in
      (y :: ys, drawn')
  end.

(** [update(options)] of the snapshot.  Reading [options.viewport] of
    an absent [options] throws before the surface is touched. *)
Definition update_snapshot (random : nat -> R) (drawn : nat)
    (svg : RandomSvgElement) (options : option VisualUpdateOptions)
    : RandomSvgElement * nat * completion unit :=
  let data := snapshot_data in
  match options with
  | None => (svg, drawn, Throw)
  | Some o =>
      let width := width (viewport o) in
      let height := height (viewport o) in
      let radius := Rmin width height / 2 in
      let arc_innerRadius := radius - donutWidth in
      let arc_outerRadius := radius in
      let surface (path : list RandomPathElement) :=
        {| rattr_width := Some width; rattr_height := Some height;
           rchildren :=
             rchildren svg ++
             [{| rg_transform := (width / 2, height / 2); rg_paths := path |}] |} in
      match defined (pie (map count data)) with
      | None => (surface [], drawn, Throw)
      | Some arcs =>
          let '(fills, drawn') := each_random random drawn arcs in
          let path :=
            map (fun '(d, f) =>
                   {| rpath_data := d; rpath_innerRadius := arc_innerRadius;
                      rpath_outerRadius := arc_outerRadius; rpath_fill := f |})
                (combine arcs fills) in
          (surface path, drawn', Return tt)
      end
  end.

(** * Part III: the arithmetic of the arcs on doubles

    A JavaScript number is an IEEE 754 binary64 value.  The claims
    about the size of the angles are settled on this part, where the
    layout computes with Rocq's primitive binary64 floats: sums
    overflow, products of 0 and Infinity are NaN, and every operation
    rounds.

    d3 3.5 changed the factor of the layout in the course of its
    releases: the later ones read [k = sum ? (da - n * pa) / sum : 0],
    the earlier ones divide whatever the sum,
    [k = (da - n * pa) / d3.sum(values)].  The repository names no
    release; [guarded] tells which of the two is loaded. *)

Section Doubles.
Local Open Scope bool_scope.
Local Open Scope float_scope.

(** [Math.PI] and d3's [τ = 2 * π]. *)
Definition Math_PI : float := 0x1.921fb54442d18p+1.
Definition tau_double : float := 2 * Math_PI.

(** [Math.min(x, y)]: NaN when an argument is NaN, and -0 is smaller
    than +0. *)
Definition Math_min (x y : float) : float :=
  if is_nan x || is_nan y then nan
  else if x <? y then x
  else if y <? x then y
  else if PrimFloat.is_zero x && (1 / x <? 0) then x
  else y.

(** A number in a condition: 0, -0 and NaN are falsy. *)
Definition truthy_number (x : float) : bool :=
  negb (PrimFloat.is_zero x || is_nan x).

(** The length of an array as a number (a JavaScript array has fewer
    than 2^32 elements). *)
Definition number_of_nat (n : nat) : float :=
  of_uint63 (Uint63.of_Z (Z.of_nat n)).

(** [d3.sum(values)]: [if (!isNaN(a = +array[i])) s += a]. *)
Definition d3_sum_double (values : list float) : float :=
  fold_left (fun s a => if is_nan a then s else s + a) values 0.

(** The sort of the layout, with the comparator
    [values[j] - values[i]]: [j] moves ahead of [i] when the comparator
    is positive; a comparator that is NaN counts as 0.  A stable
    insertion sort, as for the reals. *)
Fixpoint sort_insert_double (values : list float) (i : nat) (sorted : list nat)
    : list nat :=
  match sorted with
  | [] => [i]
  | j :: rest =>
      if 0 <? nth j values nan - nth i values nan
      then j :: sort_insert_double values i rest
      else i :: j :: rest
  end.

Definition sort_by_value_double (values : list float) (index : list nat)
    : list nat :=
  fold_right (sort_insert_double values) [] index.

Record ArcDouble : Type := {
  ddata : float;
  dvalue : float;
  dstartAngle : float;
  dendAngle : float;
  dpadAngle : float
}.

(** One step of [index.forEach], as [pie_step]. *)
Definition pie_step_double (values : list float) (k pa p : float)
    (st : float * list (option ArcDouble)) (i : nat)
    : float * list (option ArcDouble) :=
  let a := fst st in
  let v := nth i values nan in
  let a' := a + (v * k + pa) in
  (a', array_set (snd st) i
         {| ddata := nth i values nan; dvalue := v;
            dstartAngle := a; dendAngle := a'; dpadAngle := p |}).

(** [d3.layout.pie().value(function(d) { return d; })] on doubles. *)
Definition pie_double (guarded : bool) (data : list float)
    : list (option ArcDouble) :=
  let n := length data in
  let values := data in
  let a := 0 in
  let da := tau_double - a in
  let p := Math_min (abs da / number_of_nat n) 0 in
  let pa := p * (if da <? 0 then -1 else 1) in
  let sum := d3_sum_double values in
  let k := if guarded
           then (if truthy_number sum
                 then (da - number_of_nat n * pa) / sum
                 else 0)
           else (da - number_of_nat n * pa) / sum in
  let index := sort_by_value_double values (seq 0 n) in
  snd (fold_left (pie_step_double values k pa p) index (a, [])).

(** ** The arcs [update] draws, on doubles *)

Record DoubleDataPoint : Type := {
  dcount : float;
  dcategory : string
}.

Record DoubleViewport : Type := {
  dwidth : float;
  dheight : float
}.

Record DoublePathElement : Type := {
  dpath_data : ArcDouble;
  dinnerRadius : float;
  douterRadius : float;
  dfill : string
}.

(** Lines 120 to 158 of [update] for the data points of a view model:
    the [path] elements it appends to the new group.  [Throw] stands
    for the arc generator meeting a hole in the array of arcs. *)
Definition update_paths (guarded : bool) (dataPoints : list DoubleDataPoint)
    (vp : DoubleViewport) : completion (list DoublePathElement) :=
  let width := dwidth vp in
  let height := dheight vp in
  let radius := Math_min width height / 2 in
  let donutWidth := 50 in
  let color := category20b in
  let arc_innerRadius := radius - donutWidth in
  let arc_outerRadius := radius in
  match defined (pie_double guarded (map dcount dataPoints)) with
  | None => Throw
  | Some arcs =>
      let '(fills, _) :=
        each (fun c '(i, _) => scale c i) color (indexed arcs) in
      Return
        (map (fun '(d, f) =>
                {| dpath_data := d; dinnerRadius := arc_innerRadius;
                   douterRadius := arc_outerRadius; dfill := f |})
             (combine arcs fills))
  end.

(** ** Notions for the properties on doubles *)


(** The factor of the layout for data of sum [sum]: the pad angle is 0
    ([pie_pad_double]), and so is the length times the pad angle
    ([number_of_nat_times_zero]). *)
Definition pie_factor_double (guarded : bool) (sum : float) : float :=
  if guarded
  then (if truthy_number sum then tau_double / sum else 0)
  else tau_double / sum.

(** The order in which the layout walks the data. *)
Definition pie_order_double (values : list float) : list nat :=
  sort_by_value_double values (seq 0 (length values)).

(** The arcs in the order [index.forEach] makes them. *)
Fixpoint laid_out_double (values : list float) (k pa p a : float)
    (index : list nat) : list ArcDouble :=
  match index with
  | [] => []
  | i :: rest =>
      let v := nth i values nan in
      let a' := a + (v * k + pa) in
      {| ddata := v; dvalue := v; dstartAngle := a; dendAngle := a';
         dpadAngle := p |} :: laid_out_double values k pa p a' rest
  end.

(** The arcs of the layout as a list without holes. *)
Definition pie_arcs_double (guarded : bool) (values : list float)
    : list ArcDouble :=
  match defined (pie_double guarded values) with
  | Some arcs => arcs
  | None => []
  end.



(** ** Sample inputs on doubles *)

Definition dviewport_200 : DoubleViewport := {| dwidth := 200; dheight := 200 |}.




Definition dpoints_XY : list DoubleDataPoint :=
  [ {| dcount := 0; dcategory := "X" |}; {| dcount := 0; dcategory := "Y" |} ].

(** A number, read through its specification, that is +0, positive or
    +Infinity. *)
Definition nonneg_sf (x : spec_float) : Prop :=
  match x with
  | S754_zero false | S754_infinity false | S754_finite false _ _ => True
  | _ => False
  end.


End Doubles.

(** * Part IV: properties *)

(** ** The view model builder *)

Lemma push_slice_kept (acc : list DonutSlicerDataPoint) (r : DataViewTableRow) :
  push_slice acc r = acc ++ kept_rows [r].
Proof.
  destruct r as [c [[|a s]|]]; unfold push_slice, kept_rows, data_point_of;
    simpl; now rewrite ?app_nil_r.
Qed.

Lemma kept_rows_app (l1 l2 : list DataViewTableRow) :
  kept_rows (l1 ++ l2) = kept_rows l1 ++ kept_rows l2.
Proof. unfold kept_rows. now rewrite filter_app, map_app. Qed.

Lemma fold_push_slice (rs : list DataViewTableRow) :
  forall acc, fold_left push_slice rs acc = acc ++ kept_rows rs.
Proof.
  induction rs as [|r rs IH]; intros acc; simpl.
  - now rewrite app_nil_r.
  - rewrite IH, push_slice_kept, <- app_assoc.
    f_equal. change (r :: rs) with ([r] ++ rs). now rewrite kept_rows_app.
Qed.

Lemma first_data_view_nth (o : VisualUpdateOptions) (dv : DataView) :
  first_data_view (Some o) = Some dv <->
  exists dvs, dataViews o = Some dvs /\ nth_error dvs 0 = Some (Some dv).
Proof.
  unfold first_data_view. split.
  - destruct (dataViews o) as [[|[d|] dvs]|]; try discriminate.
    intros [= ->]. now exists (Some dv :: dvs).
  - intros (dvs & -> & H). destruct dvs as [|[d|] dvs]; try discriminate.
    simpl in H. now injection H as ->.
Qed.

(** What the builder returns once the first data view is there. *)
Lemma visualTransform_first (options : option VisualUpdateOptions) (dv : DataView) :
  first_data_view options = Some dv ->
  visualTransform options =
  match table dv with
  | Some t =>
      match rows t with
      | Some rs => Return (Some {| dataPoints := kept_rows rs |})
      | None => Throw
      end
  | None => Throw
  end.
Proof.
  destruct options as [o|]; [|discriminate].
  intros H. apply first_data_view_nth in H as (dvs & Hd & Hn).
  unfold visualTransform. rewrite Hd, Hn.
  destruct (table dv) as [t|]; [|reflexivity].
  destruct (rows t) as [rs|]; [|reflexivity].
  now rewrite fold_push_slice.
Qed.

Lemma visualTransform_rows (options : option VisualUpdateOptions)
    (rs : list DataViewTableRow) :
  table_rows options = Some rs ->
  visualTransform options = Return (Some {| dataPoints := kept_rows rs |}).
Proof.
  unfold table_rows. destruct (first_data_view options) as [dv|] eqn:E; [|discriminate].
  rewrite (visualTransform_first _ _ E).
  destruct (table dv) as [t|]; [|discriminate]. now intros ->.
Qed.

Lemma visualTransform_null (options : option VisualUpdateOptions) :
  visualTransform options = Return None <-> first_data_view options = None.
Proof.
  destruct (first_data_view options) as [dv|] eqn:E.
  - rewrite (visualTransform_first _ _ E). split; [|discriminate].
    destruct (table dv) as [t|]; [|discriminate].
    destruct (rows t); discriminate.
  - split; [reflexivity|intros _].
    destruct options as [o|]; [|reflexivity].
    unfold first_data_view in E. unfold visualTransform.
    destruct (dataViews o) as [[|[d|] dvs]|]; try reflexivity; discriminate.
Qed.

Lemma first_data_view_none (options : option VisualUpdateOptions) :
  first_data_view options = None <->
  update_absent options \/ data_views_absent options \/ first_entry_absent options.
Proof.
  unfold update_absent, data_views_absent, first_entry_absent. split.
  - destruct options as [o|]; [|now left]. simpl.
    destruct (dataViews o) as [dvs|] eqn:E.
    + intros H. right; right. exists o, dvs. repeat split; trivial.
      destruct dvs as [|[d|] dvs]; [now left|discriminate|now right].
    + intros _. right; left. now exists o.
  - intros [->|[(o & -> & H)|(o & dvs & -> & H & Hn)]]; simpl; trivial.
    + now rewrite H.
    + rewrite H. destruct dvs as [|[d|] dvs]; trivial.
      destruct Hn as [Hn|Hn]; discriminate.
Qed.

(** ** JavaScript arrays with holes *)

Section Arrays.
Context {A : Type}.
Implicit Types (arr : list (option A)) (x : A) (i j : nat).

Lemma array_get_set_same arr i x : array_get (array_set arr i x) i = Some x.
Proof.
  revert arr; induction i as [|i IH]; intros [|h t]; simpl; trivial.
  - apply (IH []).
  - apply IH.
Qed.

Lemma array_get_nil i : array_get (@nil (option A)) i = None.
Proof. unfold array_get. now destruct i. Qed.

Lemma array_get_set_other arr i j x :
  i <> j -> array_get (array_set arr i x) j = array_get arr j.
Proof.
  revert arr j; induction i as [|i IH]; intros arr j Hij.
  - destruct j as [|j]; [congruence|]. destruct arr as [|h t]; simpl.
    + unfold array_get; simpl. now destruct j.
    + reflexivity.
  - destruct j as [|j]; [now destruct arr|].
    assert (Hij' : i <> j) by congruence.
    destruct arr as [|h t]; simpl.
    + change (array_get (array_set [] i x) j = array_get [] (S j)).
      rewrite (IH [] j Hij'). now rewrite !array_get_nil.
    + apply (IH t j Hij').
Qed.

Lemma array_set_length_le arr i x (n : nat) :
  (length arr <= n)%nat -> (i < n)%nat ->
  (length (array_set arr i x) <= n)%nat.
Proof.
  revert arr n; induction i as [|i IH]; intros [|h t] [|n] Hl Hi;
    simpl in *; try lia.
  - specialize (IH [] n); simpl in IH. lia.
  - specialize (IH t n). lia.
Qed.

Lemma array_get_lt arr i x : array_get arr i = Some x -> (i < length arr)%nat.
Proof.
  unfold array_get. intros H. apply nth_error_Some.
  destruct (nth_error arr i); congruence.
Qed.

Lemma defined_map_Some (l : list A) : defined (map Some l) = Some l.
Proof. induction l as [|x l IH]; simpl; trivial. now rewrite IH. Qed.

Lemma array_get_map_Some (l : list A) i :
  array_get (map Some l) i = nth_error l i.
Proof.
  unfold array_get. rewrite nth_error_map. now destruct (nth_error l i).
Qed.

(** An array every slot of which has been assigned has no hole. *)
Lemma no_hole arr :
  (forall j, (j < length arr)%nat -> array_get arr j <> None) ->
  exists l, arr = map Some l.
Proof.
  induction arr as [|h t IH]; intros H.
  - now exists [].
  - destruct IH as [l ->].
    + intros j Hj. apply (H (S j)). simpl; lia.
    + destruct h as [x|].
      * now exists (x :: l).
      * exfalso. apply (H 0%nat); simpl; [lia|reflexivity].
Qed.

End Arrays.

(** ** The sort of the pie layout *)

Section Sort.
Variable values : list R.

Lemma sort_insert_perm (i : nat) (l : list nat) :
  Permutation (sort_insert values i l) (i :: l).
Proof.
  induction l as [|j l IH]; simpl; [reflexivity|].
  destruct (Rle_dec _ _); [reflexivity|].
  rewrite IH. apply perm_swap.
Qed.

Lemma sort_by_value_perm (l : list nat) :
  Permutation (sort_by_value values l) l.
Proof.
  induction l as [|i l IH]; simpl; [reflexivity|].
  rewrite sort_insert_perm. now constructor.
Qed.

Lemma sort_insert_sorted (i : nat) (l : list nat) :
  Sorted (value_ge values) l -> Sorted (value_ge values) (sort_insert values i l).
Proof.
  induction l as [|j l IH]; intros Hs; simpl.
  - repeat constructor.
  - destruct (Rle_dec _ _) as [Hle|Hgt].
    + constructor; trivial. constructor. unfold value_ge. lra.
    + inversion Hs as [|? ? Hs' Hhd]; subst. constructor; [now apply IH|].
      destruct l as [|j' l]; simpl.
      * constructor. unfold value_ge. lra.
      * destruct (Rle_dec _ _); constructor.
        -- unfold value_ge. lra.
        -- now inversion Hhd.
Qed.

Lemma sort_by_value_sorted (l : list nat) :
  Sorted (value_ge values) (sort_by_value values l).
Proof.
  induction l as [|i l IH]; simpl; [constructor|].
  now apply sort_insert_sorted.
Qed.

End Sort.

(** ** The pie layout *)

Section Layout.
Variables (values : list R) (k pa p : R).

Lemma laid_out_length a index :
  length (laid_out values k pa p a index) = length index.
Proof. revert a; induction index; intros; simpl; auto. Qed.

Lemma laid_out_chained a index : chained a (laid_out values k pa p a index).
Proof. revert a; induction index; intros; simpl; auto. Qed.

Lemma laid_out_nth index : forall a (m : nat) d,
  nth_error (laid_out values k pa p a index) m = Some d ->
  exists i, nth_error index m = Some i /\
    data d = nth i values 0 /\ value d = nth i values 0 /\
    endAngle d = startAngle d + (nth i values 0 * k + pa) /\ padAngle d = p.
Proof.
  induction index as [|i rest IH]; intros a [|m] d H; simpl in H;
    try discriminate.
  - injection H as <-. exists i. simpl. auto.
  - apply IH in H as (j & Hj & H). now exists j.
Qed.

Lemma fold_pie_step_length index : forall st (n : nat),
  (length (snd st) <= n)%nat -> Forall (fun i => (i < n)%nat) index ->
  (length (snd (fold_left (pie_step values k pa p) index st)) <= n)%nat.
Proof.
  induction index as [|i rest IH]; intros st n Hl Hi; simpl; trivial.
  inversion Hi; subst. apply IH; trivial.
  simpl. now apply array_set_length_le.
Qed.

(** After the loop, slot [i] holds the arc made when [i] came up, and
    the other slots are as before. *)
Lemma fold_pie_step_get index : forall a arr,
  NoDup index ->
  let arcs := snd (fold_left (pie_step values k pa p) index (a, arr)) in
  (forall j, ~ In j index -> array_get arcs j = array_get arr j) /\
  (forall m i, nth_error index m = Some i ->
     array_get arcs i = nth_error (laid_out values k pa p a index) m).
Proof.
  induction index as [|i rest IH]; intros a arr Hnd.
  - split; [trivial|]. intros [|m] i; discriminate.
  - inversion Hnd as [|? ? Hi Hrest]; subst.
    cbn [fold_left].
    change (pie_step values k pa p (a, arr) i)
      with (a + (nth i values 0 * k + pa),
            array_set arr i
              {| data := nth i values 0; value := nth i values 0;
                 startAngle := a;
                 endAngle := a + (nth i values 0 * k + pa);
                 padAngle := p |}).
    destruct (IH (a + (nth i values 0 * k + pa))
                 (array_set arr i
                    {| data := nth i values 0; value := nth i values 0;
                       startAngle := a;
                       endAngle := a + (nth i values 0 * k + pa);
                       padAngle := p |}) Hrest) as [IH1 IH2].
    split.
    + intros j Hj. rewrite IH1 by (simpl in Hj; tauto).
      apply array_get_set_other. simpl in Hj; tauto.
    + intros [|m] j Hm; simpl in Hm.
      * injection Hm as <-. rewrite (IH1 i Hi).
        apply array_get_set_same.
      * now apply IH2.
Qed.

End Layout.

(** The pad angle of the layout is 0 for every number of data. *)
Lemma pie_pad (n : nat) :
  match n with O => 0 | _ => Rmin (Rabs (tau - 0) / INR n) 0 end = 0.
Proof.
  destruct n as [|n]; trivial.
  apply Rmin_right. apply Rmult_le_pos; [apply Rabs_pos|].
  left. apply Rinv_0_lt_compat. apply lt_0_INR. lia.
Qed.

Lemma pie_order_perm (values : list R) :
  Permutation (pie_order values) (seq 0 (length values)).
Proof. apply sort_by_value_perm. Qed.

Lemma pie_order_In (values : list R) (i : nat) :
  In i (pie_order values) <-> (i < length values)%nat.
Proof.
  pose proof (pie_order_perm values) as Hperm. split; intros H.
  - apply (Permutation_in _ Hperm) in H. apply in_seq in H. lia.
  - apply (Permutation_in _ (Permutation_sym Hperm)). apply in_seq. lia.
Qed.

Lemma pie_unfold (values : list R) :
  pie values =
  snd (fold_left (pie_step values (pie_factor values) 0 0)
                 (pie_order values) (0, [])).
Proof.
  unfold pie, pie_factor, pie_order.
  rewrite pie_pad, Rmult_0_l, Rmult_0_r.
  destruct (Req_dec_T (d3_sum values) 0); trivial.
  now rewrite Rminus_0_r, Rminus_0_r.
Qed.

(** The layout fills every slot: the array it returns has one arc per
    datum and no hole, and the arcs read in layout order are the ones
    made one after the other. *)
Lemma pie_defined (values : list R) :
  exists arcs,
    pie values = map Some arcs /\
    length arcs = length values /\
    forall m i, nth_error (pie_order values) m = Some i ->
      nth_error arcs i =
      nth_error (laid_out values (pie_factor values) 0 0 0 (pie_order values)) m.
Proof.
  rewrite pie_unfold.
  assert (Hnd : NoDup (pie_order values)).
  { eapply Permutation_NoDup; [symmetry; apply pie_order_perm|apply seq_NoDup]. }
  destruct (fold_pie_step_get values (pie_factor values) 0 0
              (pie_order values) 0 [] Hnd) as [_ Hget].
  set (arr := snd (fold_left _ _ _)) in *.
  assert (Hlen : (length arr <= length values)%nat).
  { apply fold_pie_step_length; simpl; [lia|].
    apply Forall_forall. intros i. apply pie_order_In. }
  assert (Hsome : forall i, (i < length values)%nat ->
            exists d, array_get arr i = Some d).
  { intros i Hi. apply pie_order_In in Hi. apply In_nth_error in Hi as [m Hm].
    rewrite (Hget m i Hm).
    destruct (nth_error (laid_out _ _ _ _ _ _) m) as [d|] eqn:E; [now exists d|].
    apply nth_error_None in E. rewrite laid_out_length in E.
    assert (nth_error (pie_order values) m <> None) as Hlt by congruence.
    apply nth_error_Some in Hlt. lia. }
  destruct (no_hole arr) as [arcs Harcs].
  { intros j Hj. destruct (Hsome j) as [d ->]; [lia|discriminate]. }
  exists arcs. split; [exact Harcs|]. split.
  - apply Nat.le_antisymm.
    + rewrite Harcs, length_map in Hlen. exact Hlen.
    + destruct (length values) as [|n] eqn:En; [lia|].
      destruct (Hsome n) as [d Hd]; [lia|].
      apply array_get_lt in Hd. rewrite Harcs, length_map in Hd. lia.
  - intros m i Hm. rewrite <- (Hget m i Hm), Harcs.
    symmetry. apply array_get_map_Some.
Qed.

Lemma pie_arcs_defined (values : list R) :
  defined (pie values) = Some (pie_arcs values).
Proof.
  unfold pie_arcs. destruct (pie_defined values) as (arcs & -> & _).
  now rewrite defined_map_Some.
Qed.

Lemma pie_arcs_order (values : list R) (m i : nat) :
  nth_error (pie_order values) m = Some i ->
  nth_error (pie_arcs values) i =
  nth_error (laid_out values (pie_factor values) 0 0 0 (pie_order values)) m.
Proof.
  unfold pie_arcs. destruct (pie_defined values) as (arcs & -> & _ & H).
  rewrite defined_map_Some. apply H.
Qed.

Lemma pie_arcs_length (values : list R) :
  length (pie_arcs values) = length values.
Proof.
  unfold pie_arcs. destruct (pie_defined values) as (arcs & -> & H & _).
  now rewrite defined_map_Some.
Qed.

Lemma pie_arcs_lt (values : list R) (i : nat) (d : ArcDescriptor) :
  nth_error (pie_arcs values) i = Some d -> (i < length values)%nat.
Proof.
  intros E. rewrite <- pie_arcs_length. apply nth_error_Some. congruence.
Qed.

(** Arc [i] carries datum [i], and its span is the value times the
    factor of the layout. *)
Lemma pie_arcs_nth (values : list R) (i : nat) :
  (i < length values)%nat ->
  exists d, nth_error (pie_arcs values) i = Some d /\
    data d = nth i values 0 /\ value d = nth i values 0 /\
    span d = nth i values 0 * pie_factor values /\ padAngle d = 0.
Proof.
  intros Hi.
  assert (Hin : In i (pie_order values)) by now apply pie_order_In.
  apply In_nth_error in Hin as [m Hm].
  destruct (nth_error (pie_arcs values) i) as [d|] eqn:E.
  - exists d. split; trivial.
    rewrite (pie_arcs_order _ _ _ Hm) in E.
    apply laid_out_nth in E as (j & Hj & Hd & Hv & He & Hp).
    rewrite Hm in Hj. injection Hj as <-.
    repeat split; trivial. unfold span. rewrite He. lra.
  - apply nth_error_None in E. rewrite pie_arcs_length in E. lia.
Qed.

Lemma map_pie_arcs (f : ArcDescriptor -> R) (g : R -> R) (values : list R) :
  (forall i d, nth_error (pie_arcs values) i = Some d ->
     f d = g (nth i values 0)) ->
  map f (pie_arcs values) = map g values.
Proof.
  intros H. apply nth_error_ext. intros i.
  rewrite !nth_error_map.
  destruct (nth_error (pie_arcs values) i) as [d|] eqn:E; simpl.
  - pose proof (pie_arcs_lt _ _ _ E) as Hi.
    rewrite (nth_error_nth' values 0 Hi). simpl. f_equal. now apply H.
  - apply nth_error_None in E. rewrite pie_arcs_length in E.
    apply nth_error_None in E. now rewrite E.
Qed.

Lemma pie_arcs_value (values : list R) : map value (pie_arcs values) = values.
Proof.
  rewrite (map_pie_arcs value (fun v => v)); [apply map_id|].
  intros i d E.
  destruct (pie_arcs_nth values i (pie_arcs_lt _ _ _ E)) as (d' & E' & _ & Hv & _).
  congruence.
Qed.

Lemma pie_arcs_span (values : list R) :
  map span (pie_arcs values) = map (fun v => v * pie_factor values) values.
Proof.
  apply map_pie_arcs. intros i d E.
  destruct (pie_arcs_nth values i (pie_arcs_lt _ _ _ E)) as (d' & E' & _ & _ & Hs & _).
  congruence.
Qed.

(** The arcs follow one another around the circle in layout order,
    starting from angle 0. *)
Lemma pie_arcs_chained (values : list R) :
  exists ordered,
    map (nth_error (pie_arcs values)) (pie_order values) = map Some ordered /\
    chained 0 ordered.
Proof.
  exists (laid_out values (pie_factor values) 0 0 0 (pie_order values)).
  split; [|apply laid_out_chained].
  apply nth_error_ext. intros m. rewrite !nth_error_map.
  destruct (nth_error (pie_order values) m) as [i|] eqn:E; simpl.
  - rewrite (pie_arcs_order _ _ _ E).
    destruct (nth_error (laid_out _ _ _ _ _ _) m) eqn:E'; trivial.
    apply nth_error_None in E'. rewrite laid_out_length in E'.
    apply nth_error_None in E'. congruence.
  - apply nth_error_None in E.
    rewrite <- (laid_out_length values (pie_factor values) 0 0 0) in E.
    apply nth_error_None in E. now rewrite E.
Qed.

Lemma pie_factor_nonzero (values : list R) :
  d3_sum values <> 0 -> pie_factor values = tau / d3_sum values.
Proof.
  intros H. unfold pie_factor. now destruct (Req_dec_T _ _).
Qed.

Lemma pie_order_10_20 : pie_order [10; 20] = [1%nat; 0%nat].
Proof.
  unfold pie_order, sort_by_value. simpl.
  repeat (destruct (Rle_dec _ _); try lra).
  reflexivity.
Qed.

(** ** The colour scale *)

Section Scale.
Variable r : list string.

Lemma index_get_seq_None (s n x : nat) :
  (x < s \/ s + n <= x)%nat -> index_get (seq s n) x = None.
Proof.
  revert s; induction n as [|n IH]; intros s H; simpl; trivial.
  destruct (Nat.eqb_spec s x); [lia|].
  rewrite IH by lia. reflexivity.
Qed.

Lemma index_get_seq_Some (s n x : nat) :
  (s <= x < s + n)%nat -> index_get (seq s n) x = Some (S (x - s)).
Proof.
  revert s; induction n as [|n IH]; intros s H; simpl; [lia|].
  destruct (Nat.eqb_spec s x) as [->|Hne].
  - now rewrite Nat.sub_diag.
  - rewrite IH by lia. simpl. f_equal. lia.
Qed.

(** A new input is appended to the domain and gets the next colour. *)
Lemma scale_fresh (m : nat) :
  scale {| domain := seq 0 m; range := r |} m =
  (color_at r m, {| domain := seq 0 (S m); range := r |}).
Proof.
  unfold scale; cbn [domain range]. rewrite index_get_seq_None by lia.
  rewrite seq_S, length_app, length_seq. cbn [length Nat.add].
  unfold color_at. do 3 f_equal. lia.
Qed.

(** An input seen before keeps its colour and leaves the scale as it
    is. *)
Lemma scale_known (m x : nat) :
  (x < m)%nat ->
  scale {| domain := seq 0 m; range := r |} x =
  (color_at r x, {| domain := seq 0 m; range := r |}).
Proof.
  intros H. unfold scale; cbn [domain range].
  rewrite index_get_seq_Some by lia.
  unfold color_at. do 3 f_equal. lia.
Qed.

Lemma each_scale_fresh {A : Type} (l : list A) : forall m,
  each (fun c '(i, _) => scale c i) {| domain := seq 0 m; range := r |}
       (combine (seq m (length l)) l) =
  (map (color_at r) (seq m (length l)),
   {| domain := seq 0 (m + length l); range := r |}).
Proof.
  induction l as [|x l IH]; intros m; simpl.
  - now rewrite Nat.add_0_r.
  - rewrite scale_fresh, IH. do 3 f_equal. lia.
Qed.

Lemma each_scale_known (m : nat) (l : list nat) :
  Forall (fun x => (x < m)%nat) l ->
  each scale {| domain := seq 0 m; range := r |} l =
  (map (color_at r) l, {| domain := seq 0 m; range := r |}).
Proof.
  induction l as [|x l IH]; intros H; simpl; trivial.
  inversion H; subst. rewrite scale_known by trivial. now rewrite IH.
Qed.

End Scale.

(** ** What a completed [update] draws *)

Lemma map_combine_seq {A B C : Type} (f : A * B -> C) (g : nat -> B)
    (l : list A) : forall s,
  map f (combine l (map g (seq s (length l)))) =
  map (fun '(i, d) => f (d, g i)) (combine (seq s (length l)) l).
Proof.
  induction l as [|x l IH]; intros s; simpl; trivial. now rewrite IH.
Qed.

Lemma map_combine_diag {B C : Type} (f : nat * nat * (B * B) -> C)
    (g : nat -> B) (l : list nat) :
  map f (combine (combine l l) (combine (map g l) (map g l))) =
  map (fun i => f (i, i, (g i, g i))) l.
Proof. induction l as [|x l IH]; simpl; trivial. now rewrite IH. Qed.

Lemma map_indexed_snd {A B : Type} (f : A -> B) (l : list A) : forall s,
  map (fun '(_, d) => f d) (combine (seq s (length l)) l) = map f l.
Proof. induction l as [|x l IH]; intros s; simpl; trivial. now rewrite IH. Qed.

Lemma map_indexed_fst {A B : Type} (f : nat -> B) (l : list A) : forall s,
  map (fun '(i, _) => f i) (combine (seq s (length l)) l) =
  map f (seq s (length l)).
Proof. induction l as [|x l IH]; intros s; simpl; trivial. now rewrite IH. Qed.

(** [render] on a view model: it completes, sets the size of the
    surface and appends one group after what was there. *)
Lemma render_appended (svg : SvgElement) (vm : DonutSlicerViewModel)
    (vp : IViewport) :
  render svg (Some vm) vp =
  (appended svg vp (donut_of (dataPoints vm) vp), Return tt).
Proof.
  unfold render, donut_of, appended. rewrite pie_arcs_defined.
  set (arcs := pie_arcs (map count (dataPoints vm))).
  unfold indexed.
  change category20b with {| domain := seq 0 0; range := d3_category20b |}.
  rewrite (each_scale_fresh d3_category20b arcs 0).
  cbn [domain Nat.add].
  assert (Hlt : Forall (fun x => (x < length arcs)%nat) (seq 0 (length arcs))).
  { apply Forall_forall. intros x Hx. apply in_seq in Hx. lia. }
  rewrite !(each_scale_known d3_category20b _ _ Hlt).
  rewrite length_seq.
  rewrite (map_combine_seq _ _ arcs 0).
  rewrite map_combine_diag.
  unfold legend_translate. cbn [domain]. rewrite length_seq.
  reflexivity.
Qed.

(** On a null view model [render] has already resized the surface and
    appended an empty group when reading [viewModel.dataPoints]
    throws. *)
Lemma render_null (svg : SvgElement) (vp : IViewport) :
  render svg None vp =
  (appended svg vp {| g_transform := (width vp / 2, height vp / 2);
                      paths := []; legends := [] |},
   Throw).
Proof. reflexivity. Qed.

(** On a view model that is not null [render] completes, whatever the
    data points (none, counts all 0) and the viewport (a size of 0),
    and the groups drawn before stay on the surface. *)
Lemma render_completes (svg : SvgElement) (vm : DonutSlicerViewModel)
    (vp : IViewport) :
  snd (render svg (Some vm) vp) = Return tt /\
  exists g, children (fst (render svg (Some vm) vp)) = children svg ++ [g].
Proof. rewrite render_appended. split; [reflexivity|now eexists]. Qed.

Lemma appended_inj (svg : SvgElement) (vp : IViewport) (g g' : GElement) :
  appended svg vp g = appended svg vp g' -> g = g'.
Proof.
  unfold appended. intros [= H]. apply app_inv_head in H. now injection H.
Qed.

(** From [H : render svg (Some vm) vp = (appended svg vp g, _)] to the
    group [g] itself. *)
Ltac group_of H :=
  rewrite render_appended in H;
  apply (f_equal fst) in H; cbn [fst] in H;
  apply appended_inj in H.

(** [update] on options that carry a table draws the kept rows. *)
Lemma update_appended (svg : SvgElement) (o : VisualUpdateOptions)
    (rs : list DataViewTableRow) :
  table_rows (Some o) = Some rs ->
  update svg (Some o) =
  (appended svg (viewport o) (donut_of (kept_rows rs) (viewport o)), Return tt).
Proof.
  intros H. unfold update. rewrite (visualTransform_rows _ _ H).
  apply render_appended.
Qed.

Section Donut.
Variables (dps : list DonutSlicerDataPoint) (vp : IViewport).

Lemma donut_paths_data :
  map path_data (paths (donut_of dps vp)) = pie_arcs (map count dps).
Proof.
  unfold donut_of, indexed; cbn [paths]. rewrite map_map.
  rewrite <- (map_id (pie_arcs (map count dps))) at 3.
  rewrite <- (map_indexed_snd (fun d => d) _ 0).
  apply map_ext. now intros [i d].
Qed.

Lemma donut_paths_length : length (paths (donut_of dps vp)) = length dps.
Proof.
  rewrite <- (length_map path_data), donut_paths_data, pie_arcs_length.
  apply length_map.
Qed.

Lemma donut_paths_fill :
  map fill (paths (donut_of dps vp)) = map palette_color (seq 0 (length dps)).
Proof.
  unfold donut_of, indexed; cbn [paths]. rewrite map_map.
  rewrite <- (length_map count dps), <- pie_arcs_length.
  rewrite <- (map_indexed_fst palette_color _ 0).
  apply map_ext. now intros [i d].
Qed.

Lemma donut_paths_value :
  map (fun pth => value (path_data pth)) (paths (donut_of dps vp)) =
  map count dps.
Proof.
  rewrite <- (map_map path_data value), donut_paths_data.
  apply pie_arcs_value.
Qed.

Lemma donut_legends :
  legends (donut_of dps vp) = map (legend_of (length dps)) (seq 0 (length dps)).
Proof.
  unfold donut_of; cbn [legends].
  now rewrite pie_arcs_length, length_map.
Qed.

End Donut.

(** ** Facts of double arithmetic *)

Section DoubleArithmetic.
Local Open Scope bool_scope.
Local Open Scope float_scope.

Lemma shr_1_nonneg (mrs : shr_record) :
  (0 <= shr_m mrs)%Z -> (0 <= shr_m (shr_1 mrs))%Z.
Proof.
  destruct mrs as [m r s]. destruct m as [|[p|p|]|p]; simpl; try lia.
Qed.

Lemma iter_pos_shr_1_nonneg (p : positive) : forall mrs,
  (0 <= shr_m mrs)%Z -> (0 <= shr_m (SpecFloat.iter_pos shr_1 p mrs))%Z.
Proof.
  induction p as [p IH|p IH|]; intros mrs H; simpl.
  - apply IH, IH. now apply shr_1_nonneg.
  - now apply IH, IH.
  - now apply shr_1_nonneg.
Qed.

Lemma shr_fexp_nonneg (m e : Z) (l : location) :
  (0 <= m)%Z -> (0 <= shr_m (fst (shr_fexp prec emax m e l)))%Z.
Proof.
  intros H. unfold shr_fexp, shr.
  assert (H0 : (0 <= shr_m (shr_record_of_loc m l))%Z).
  { destruct l as [|[]]; exact H. }
  destruct (_ - e)%Z; simpl; trivial.
  now apply iter_pos_shr_1_nonneg.
Qed.

Lemma round_nearest_even_nonneg (m : Z) (l : location) :
  (0 <= m)%Z -> (0 <= round_nearest_even m l)%Z.
Proof.
  intros H. destruct l as [|[]]; simpl; try lia.
  destruct (Z.even m); lia.
Qed.

(** Rounding a mantissa that is not negative, with the sign +, gives
    +0, a positive number or +Infinity. *)
Lemma binary_round_aux_nonneg (m e : Z) (l : location) :
  (0 <= m)%Z -> nonneg_sf (binary_round_aux prec emax false m e l).
Proof.
  intros H. unfold binary_round_aux.
  pose proof (shr_fexp_nonneg m e l H) as H1.
  destruct (shr_fexp prec emax m e l) as [mrs' e'] eqn:E1. simpl in H1.
  pose proof (shr_fexp_nonneg _ e' loc_Exact
                (round_nearest_even_nonneg _ (loc_of_shr_record mrs') H1)) as H2.
  destruct (shr_fexp prec emax _ e' loc_Exact) as [mrs'' e''] eqn:E2.
  simpl in H2.
  destruct (shr_m mrs'') as [|p|p]; simpl; [trivial| |lia].
  now destruct (_ <=? _)%Z.
Qed.

Lemma number_of_nat_nonneg (n : nat) : nonneg_sf (Prim2SF (number_of_nat n)).
Proof.
  unfold number_of_nat. rewrite of_uint63_spec. unfold binary_normalize.
  pose proof (Uint63.to_Z_bounded (Uint63.of_Z (Z.of_nat n))) as Hb.
  destruct (Uint63.to_Z _) as [|p|p]; simpl; [trivial| |lia].
  unfold binary_round. destruct (shl_align _ _ _) as [mz ez].
  apply binary_round_aux_nonneg. lia.
Qed.

Lemma tau_double_SF :
  Prim2SF (abs (tau_double - 0)) = S754_finite false 7074237752028440 (-50).
Proof. reflexivity. Qed.

Lemma SFdiv_nonneg (m : positive) (e : Z) (y : spec_float) :
  nonneg_sf y -> nonneg_sf (SF64div (S754_finite false m e) y).
Proof.
  intros Hy. destruct y as [[]|[]| |[] my ey]; try contradiction; simpl; trivial.
  unfold SFdiv_core_binary.
  set (m' := match _ with Z0 => _ | Zpos _ => _ | Zneg _ => _ end).
  assert (Hm' : (0 <= m')%Z).
  { unfold m'. destruct (_ - _ - _)%Z; try lia.
    apply Z.shiftl_nonneg. lia. }
  pose proof (Z.div_pos m' (Zpos my) Hm' eq_refl) as Hq.
  unfold Z.div in Hq. destruct (Z.div_eucl m' (Zpos my)) as [q r].
  now apply binary_round_aux_nonneg.
Qed.

Lemma Prim2SF_zero (x : float) : Prim2SF x = S754_zero false -> x = 0.
Proof. intros H. apply Prim2SF_inj. rewrite H. reflexivity. Qed.

Lemma Prim2SF_nan (x : float) : Prim2SF x = S754_nan -> x = nan.
Proof. intros H. apply Prim2SF_inj. rewrite H. reflexivity. Qed.

(** [Math.min(x, 0)] is 0 when [x] is +0, positive or +Infinity. *)
Lemma Math_min_nonneg (x : float) : nonneg_sf (Prim2SF x) -> Math_min x 0 = 0.
Proof.
  intros H. unfold Math_min, is_nan.
  rewrite !eqb_spec, !ltb_spec.
  change (Prim2SF 0) with (S754_zero false).
  destruct (Prim2SF x) as [[]|[]| |[] m e] eqn:E; try contradiction.
  - apply Prim2SF_zero in E. subst x. reflexivity.
  - reflexivity.
  - unfold SFeqb, SFltb; simpl.
    rewrite Z.compare_refl, Pos.compare_cont_refl. reflexivity.
Qed.

(** The pad angle of the layout is 0 whatever the number of data. *)
Lemma pie_pad_double (n : nat) :
  Math_min (abs (tau_double - 0) / number_of_nat n) 0 = 0.
Proof.
  apply Math_min_nonneg. rewrite div_spec, tau_double_SF.
  apply SFdiv_nonneg, number_of_nat_nonneg.
Qed.

(** A number that is neither NaN nor infinite is a zero or has a
    mantissa and an exponent. *)
Lemma is_finite_SF (v : float) :
  is_finite v = true ->
  exists s, Prim2SF v = S754_zero s \/ exists m e, Prim2SF v = S754_finite s m e.
Proof.
  unfold is_finite, is_nan, is_infinity.
  rewrite !eqb_spec, abs_spec. change (Prim2SF infinity) with (S754_infinity false).
  destruct (Prim2SF v) as [s|s| |s m e]; simpl.
  - intros _. exists s. now left.
  - rewrite Bool.orb_true_r. discriminate.
  - discriminate.
  - intros _. exists s. right. now exists m, e.
Qed.

(** A finite count times the factor 0 adds nothing to the angle 0. *)
Lemma finite_times_zero (v : float) :
  is_finite v = true -> 0 + (v * 0 + 0) = 0.
Proof.
  intros H. assert (Hv : v * 0 + 0 = 0).
  { apply Prim2SF_zero. rewrite add_spec, mul_spec.
    change (Prim2SF 0) with (S754_zero false).
    destruct (is_finite_SF v H) as [s [-> | (m & e & ->)]]; now destruct s. }
  rewrite Hv. reflexivity.
Qed.

(** Adding NaN gives NaN. *)
Lemma add_nan (a : float) : a + nan = nan.
Proof.
  apply Prim2SF_nan. rewrite add_spec. change (Prim2SF nan) with S754_nan.
  now destruct (Prim2SF a) as [[]|[]| |[] m e].
Qed.

(** ** The length of an array is a finite number *)

Lemma digits2_pos_lower (p : positive) :
  (2 ^ (Zpos (digits2_pos p) - 1) <= Zpos p)%Z.
Proof.
  induction p as [p IH|p IH|]; simpl digits2_pos.
  - rewrite Pos2Z.inj_succ.
    replace (Z.succ (Zpos (digits2_pos p)) - 1)%Z
      with (Z.succ (Zpos (digits2_pos p) - 1)) by lia.
    rewrite Z.pow_succ_r by lia. lia.
  - rewrite Pos2Z.inj_succ.
    replace (Z.succ (Zpos (digits2_pos p)) - 1)%Z
      with (Z.succ (Zpos (digits2_pos p) - 1)) by lia.
    rewrite Z.pow_succ_r by lia. lia.
  - simpl. lia.
Qed.

Lemma digits2_pos_upper (p : positive) :
  (Zpos p < 2 ^ Zpos (digits2_pos p))%Z.
Proof.
  induction p as [p IH|p IH|]; simpl digits2_pos.
  - rewrite Pos2Z.inj_succ, Z.pow_succ_r by lia. lia.
  - rewrite Pos2Z.inj_succ, Z.pow_succ_r by lia. lia.
  - simpl. lia.
Qed.

Lemma Zdigits2_bound (m k : Z) :
  (0 <= k)%Z -> (0 <= m < 2 ^ k)%Z -> (Zdigits2 m <= k)%Z.
Proof.
  intros Hk [H0 H]. destruct m as [|p|p]; simpl; try lia.
  pose proof (digits2_pos_lower p) as Hl.
  destruct (Z_lt_le_dec k (Zpos (digits2_pos p))) as [Hlt|]; [|lia].
  exfalso.
  assert (2 ^ k <= 2 ^ (Zpos (digits2_pos p) - 1))%Z
    by (apply Z.pow_le_mono_r; lia).
  lia.
Qed.

Lemma digits2_pos_iter (p d : positive) :
  Zpos (digits2_pos (Pos.iter xO p d)) = (Zpos (digits2_pos p) + Zpos d)%Z.
Proof.
  induction d as [|d IH] using Pos.peano_ind.
  - simpl. lia.
  - rewrite Pos.iter_succ. simpl digits2_pos. lia.
Qed.

Lemma shr_1_le (mrs : shr_record) :
  (0 <= shr_m mrs)%Z -> (shr_m (shr_1 mrs) <= shr_m mrs)%Z.
Proof. destruct mrs as [m r s]. destruct m as [|[p|p|]|p]; simpl; lia. Qed.

Lemma iter_pos_shr_1_le (p : positive) : forall mrs,
  (0 <= shr_m mrs)%Z ->
  (0 <= shr_m (SpecFloat.iter_pos shr_1 p mrs) <= shr_m mrs)%Z.
Proof.
  induction p as [p IH|p IH|]; intros mrs H; simpl.
  - pose proof (shr_1_le mrs H). pose proof (shr_1_nonneg mrs H) as H1.
    pose proof (IH _ H1) as [H2 H3]. pose proof (IH _ H2). lia.
  - pose proof (IH _ H) as [H2 H3]. pose proof (IH _ H2). lia.
  - pose proof (shr_1_le mrs H). pose proof (shr_1_nonneg mrs H). lia.
Qed.

(** Shifting does not make the mantissa larger, and the exponent it
    gives is the old one or the one the format asks for. *)
Lemma shr_fexp_bounds (m e : Z) (l : location) :
  (0 <= m)%Z ->
  (0 <= shr_m (fst (shr_fexp prec emax m e l)) <= m)%Z /\
  (snd (shr_fexp prec emax m e l) = e \/
   snd (shr_fexp prec emax m e l) = fexp prec emax (Zdigits2 m + e)).
Proof.
  intros H. unfold shr_fexp, shr.
  assert (H0 : shr_m (shr_record_of_loc m l) = m)
    by (destruct l as [|[]]; reflexivity).
  destruct (_ - e)%Z eqn:E; simpl.
  - split; [lia|now left].
  - split.
    + pose proof (iter_pos_shr_1_le p (shr_record_of_loc m l)). lia.
    + right. lia.
  - split; [lia|now left].
Qed.

Lemma round_nearest_even_le (m : Z) (l : location) :
  (0 <= m)%Z -> (0 <= round_nearest_even m l <= m + 1)%Z.
Proof.
  intros H. destruct l as [|[]]; simpl; try lia. destruct (Z.even m); lia.
Qed.

(** Rounding a mantissa below 2^63 with a small exponent does not
    overflow. *)
Lemma binary_round_aux_finite (m e : Z) (l : location) :
  (0 <= m < 2 ^ 63)%Z -> (e <= 10)%Z ->
  binary_round_aux prec emax false m e l <> S754_infinity false.
Proof.
  intros Hm He. unfold binary_round_aux.
  pose proof (shr_fexp_bounds m e l (proj1 Hm)) as [H1 H1e].
  destruct (shr_fexp prec emax m e l) as [mrs' e'] eqn:E1. simpl in H1, H1e.
  pose proof (round_nearest_even_le (shr_m mrs') (loc_of_shr_record mrs')
                (proj1 H1)) as Hr.
  pose proof (shr_fexp_bounds _ e' loc_Exact (proj1 Hr)) as [H2 H2e].
  destruct (shr_fexp prec emax _ e' loc_Exact) as [mrs'' e''] eqn:E2.
  simpl in H2, H2e.
  assert (Hd1 : (Zdigits2 m <= 63)%Z) by (apply Zdigits2_bound; lia).
  assert (Hd2 : (Zdigits2 (round_nearest_even (shr_m mrs')
                             (loc_of_shr_record mrs')) <= 64)%Z).
  { apply Zdigits2_bound; [lia|]. change (2 ^ 64)%Z with (2 * 2 ^ 63)%Z. lia. }
  assert (He' : (e' <= 20)%Z).
  { destruct H1e as [->| ->]; [lia|]. unfold fexp, SpecFloat.emin.
    change prec with 53%Z. change emax with 1024%Z. lia. }
  assert (He'' : (e'' <= 31)%Z).
  { destruct H2e as [->| ->]; [lia|]. unfold fexp, SpecFloat.emin.
    change prec with 53%Z. change emax with 1024%Z. lia. }
  destruct (shr_m mrs''); try discriminate.
  destruct (Z.leb_spec e'' (emax - prec)) as [|Hgt]; [discriminate|].
  change prec with 53%Z in Hgt. change emax with 1024%Z in Hgt. lia.
Qed.

Lemma of_uint63_finite (n : Uint63.int) :
  Prim2SF (of_uint63 n) <> S754_infinity false.
Proof.
  rewrite of_uint63_spec. unfold binary_normalize.
  pose proof (Uint63.to_Z_bounded n) as Hb.
  destruct (Uint63.to_Z n) as [|p|p] eqn:E; [discriminate| |lia].
  unfold binary_round, shl_align.
  assert (Hd : (Zpos (digits2_pos p) <= 63)%Z).
  { apply (Zdigits2_bound (Zpos p) 63); [lia|].
    change (2 ^ 63)%Z with Uint63.wB. lia. }
  destruct (_ - 0)%Z as [|d|d] eqn:Ed.
  - apply binary_round_aux_finite; [|lia]. change (2 ^ 63)%Z with Uint63.wB. lia.
  - apply binary_round_aux_finite; [|lia]. change (2 ^ 63)%Z with Uint63.wB. lia.
  - unfold fexp, SpecFloat.emin in Ed |- *.
    change prec with 53%Z in *. change emax with 1024%Z in *.
    apply binary_round_aux_finite; [|lia].
    split; [lia|].
    assert (Hdig : Zpos (digits2_pos (Pos.iter xO p d)) = 53%Z).
    { rewrite digits2_pos_iter. lia. }
    pose proof (digits2_pos_upper (Pos.iter xO p d)) as Hu.
    rewrite Hdig in Hu.
    assert (2 ^ 53 <= 2 ^ 63)%Z by (apply Z.pow_le_mono_r; lia). lia.
Qed.

(** The length of an array times the pad angle 0 is 0. *)
Lemma number_of_nat_times_zero (n : nat) : number_of_nat n * 0 = 0.
Proof.
  pose proof (number_of_nat_nonneg n) as Hn.
  pose proof (of_uint63_finite (Uint63.of_Z (Z.of_nat n))) as Hf.
  fold (number_of_nat n) in Hf.
  apply Prim2SF_zero. rewrite mul_spec.
  destruct (Prim2SF (number_of_nat n)) as [[]|[]| |[] m e];
    try contradiction; try reflexivity.
Qed.


End DoubleArithmetic.

(** ** The pie layout on doubles *)

Section SortDouble.
Variable values : list float.

Lemma sort_insert_double_perm (i : nat) (l : list nat) :
  Permutation (sort_insert_double values i l) (i :: l).
Proof.
  induction l as [|j l IH]; simpl; [reflexivity|].
  destruct (_ <? _)%float; [|reflexivity].
  rewrite IH. apply perm_swap.
Qed.

Lemma sort_by_value_double_perm (l : list nat) :
  Permutation (sort_by_value_double values l) l.
Proof.
  induction l as [|i l IH]; simpl; [reflexivity|].
  rewrite sort_insert_double_perm. now constructor.
Qed.

End SortDouble.

Section LayoutDouble.
Local Open Scope float_scope.
Variables (values : list float) (k pa p : float).

Lemma laid_out_double_length a index :
  length (laid_out_double values k pa p a index) = length index.
Proof. revert a; induction index; intros; simpl; auto. Qed.

Lemma laid_out_double_nth index : forall a (m : nat) d,
  nth_error (laid_out_double values k pa p a index) m = Some d ->
  exists i, nth_error index m = Some i /\
    ddata d = nth i values nan /\ dvalue d = nth i values nan /\
    dendAngle d = dstartAngle d + (nth i values nan * k + pa) /\
    dpadAngle d = p.
Proof.
  induction index as [|i rest IH]; intros a [|m] d H; simpl in H;
    try discriminate.
  - injection H as <-. exists i. simpl. auto.
  - apply IH in H as (j & Hj & H). now exists j.
Qed.

Lemma fold_pie_step_double_length index : forall st (n : nat),
  (length (snd st) <= n)%nat -> Forall (fun i => (i < n)%nat) index ->
  (length (snd (fold_left (pie_step_double values k pa p) index st)) <= n)%nat.
Proof.
  induction index as [|i rest IH]; intros st n Hl Hi; simpl; trivial.
  inversion Hi; subst. apply IH; trivial.
  simpl. now apply array_set_length_le.
Qed.

(** After the loop, slot [i] holds the arc made when [i] came up, and
    the other slots are as before. *)
Lemma fold_pie_step_double_get index : forall a arr,
  NoDup index ->
  let arcs := snd (fold_left (pie_step_double values k pa p) index (a, arr)) in
  (forall j, ~ In j index -> array_get arcs j = array_get arr j) /\
  (forall m i, nth_error index m = Some i ->
     array_get arcs i = nth_error (laid_out_double values k pa p a index) m).
Proof.
  induction index as [|i rest IH]; intros a arr Hnd.
  - split; [trivial|]. intros [|m] i; discriminate.
  - inversion Hnd as [|? ? Hi Hrest]; subst.
    cbn [fold_left].
    change (pie_step_double values k pa p (a, arr) i)
      with (a + (nth i values nan * k + pa),
            array_set arr i
              {| ddata := nth i values nan; dvalue := nth i values nan;
                 dstartAngle := a;
                 dendAngle := a + (nth i values nan * k + pa);
                 dpadAngle := p |}).
    destruct (IH (a + (nth i values nan * k + pa))
                 (array_set arr i
                    {| ddata := nth i values nan; dvalue := nth i values nan;
                       dstartAngle := a;
                       dendAngle := a + (nth i values nan * k + pa);
                       dpadAngle := p |}) Hrest) as [IH1 IH2].
    split.
    + intros j Hj. rewrite IH1 by (simpl in Hj; tauto).
      apply array_get_set_other. simpl in Hj; tauto.
    + intros [|m] j Hm; simpl in Hm.
      * injection Hm as <-. rewrite (IH1 i Hi).
        apply array_get_set_same.
      * now apply IH2.
Qed.

(** With a factor of 0 and finite values every angle is 0. *)
Lemma laid_out_double_zero index : forall a d,
  a = 0 -> k = 0 -> pa = 0 ->
  (forall i, In i index -> is_finite (nth i values nan) = true) ->
  In d (laid_out_double values k pa p a index) ->
  dstartAngle d = 0 /\ dendAngle d = 0.
Proof.
  induction index as [|i rest IH]; intros a d Ha Hk Hpa Hfin Hin;
    simpl in Hin; [contradiction|].
  assert (Hstep : a + (nth i values nan * k + pa) = 0).
  { rewrite Ha, Hk, Hpa. apply finite_times_zero, Hfin. now left. }
  destruct Hin as [<-|Hin]; simpl.
  - now split.
  - apply (IH _ d Hstep Hk Hpa); trivial.
    intros j Hj. apply Hfin. now right.
Qed.

(** With values 0 and the factor of a division by 0, every end angle
    is NaN: only the first arc starts from a number. *)
Lemma laid_out_double_nan index : forall a d,
  a = 0 \/ a = nan -> k = tau_double / 0 -> pa = 0 ->
  (forall i, In i index -> nth i values nan = 0) ->
  In d (laid_out_double values k pa p a index) ->
  dendAngle d = nan /\ (dstartAngle d = 0 \/ dstartAngle d = nan).
Proof.
  induction index as [|i rest IH]; intros a d Ha Hk Hpa Hz Hin;
    simpl in Hin; [contradiction|].
  assert (Hstep : a + (nth i values nan * k + pa) = nan).
  { rewrite Hk, Hpa, (Hz i) by now left.
    change (0 * (tau_double / 0) + 0) with nan. apply add_nan. }
  destruct Hin as [<-|Hin]; simpl.
  - now split.
  - apply (IH _ d (or_intror Hstep) Hk Hpa); trivial.
    intros j Hj. apply Hz. now right.
Qed.

End LayoutDouble.

Section PieDouble.
Local Open Scope float_scope.
Variables (guarded : bool) (values : list float).

Lemma pie_order_double_perm :
  Permutation (pie_order_double values) (seq 0 (length values)).
Proof. apply sort_by_value_double_perm. Qed.

Lemma pie_order_double_In (i : nat) :
  In i (pie_order_double values) <-> (i < length values)%nat.
Proof.
  pose proof pie_order_double_perm as Hperm. split; intros H.
  - apply (Permutation_in _ Hperm) in H. apply in_seq in H. lia.
  - apply (Permutation_in _ (Permutation_sym Hperm)). apply in_seq. lia.
Qed.

(** The pad angle is 0 and the factor is [pie_factor_double]. *)
Lemma pie_double_unfold :
  pie_double guarded values =
  snd (fold_left
         (pie_step_double values
            (pie_factor_double guarded (d3_sum_double values)) 0 0)
         (pie_order_double values) (0, [])).
Proof.
  unfold pie_double, pie_factor_double, pie_order_double.
  rewrite pie_pad_double.
  change (0 * (if tau_double - 0 <? 0 then -1 else 1)) with 0.
  rewrite number_of_nat_times_zero.
  change (tau_double - 0 - 0) with tau_double.
  reflexivity.
Qed.

(** The layout fills every slot: the array it returns has one arc per
    datum and no hole. *)
Lemma pie_double_defined :
  exists arcs,
    pie_double guarded values = map Some arcs /\
    length arcs = length values /\
    forall m i, nth_error (pie_order_double values) m = Some i ->
      nth_error arcs i =
      nth_error (laid_out_double values
                   (pie_factor_double guarded (d3_sum_double values)) 0 0 0
                   (pie_order_double values)) m.
Proof.
  rewrite pie_double_unfold.
  set (k := pie_factor_double guarded (d3_sum_double values)).
  assert (Hnd : NoDup (pie_order_double values)).
  { eapply Permutation_NoDup;
      [symmetry; apply pie_order_double_perm|apply seq_NoDup]. }
  destruct (fold_pie_step_double_get values k 0 0
              (pie_order_double values) 0 [] Hnd) as [_ Hget].
  set (arr := snd (fold_left _ _ _)) in *.
  assert (Hlen : (length arr <= length values)%nat).
  { apply fold_pie_step_double_length; simpl; [lia|].
    apply Forall_forall. intros i. apply pie_order_double_In. }
  assert (Hsome : forall i, (i < length values)%nat ->
            exists d, array_get arr i = Some d).
  { intros i Hi. apply pie_order_double_In in Hi.
    apply In_nth_error in Hi as [m Hm].
    rewrite (Hget m i Hm).
    destruct (nth_error (laid_out_double _ _ _ _ _ _) m) as [d|] eqn:E;
      [now exists d|].
    apply nth_error_None in E. rewrite laid_out_double_length in E.
    assert (nth_error (pie_order_double values) m <> None) as Hlt
      by congruence.
    apply nth_error_Some in Hlt. lia. }
  destruct (no_hole arr) as [arcs Harcs].
  { intros j Hj. destruct (Hsome j) as [d ->]; [lia|discriminate]. }
  exists arcs. split; [exact Harcs|]. split.
  - apply Nat.le_antisymm.
    + rewrite Harcs, length_map in Hlen. exact Hlen.
    + destruct (length values) as [|n] eqn:En; [lia|].
      destruct (Hsome n) as [d Hd]; [lia|].
      apply array_get_lt in Hd. rewrite Harcs, length_map in Hd. lia.
  - intros m i Hm. rewrite <- (Hget m i Hm), Harcs.
    symmetry. apply array_get_map_Some.
Qed.

Lemma pie_arcs_double_defined :
  defined (pie_double guarded values) = Some (pie_arcs_double guarded values).
Proof.
  unfold pie_arcs_double. destruct pie_double_defined as (arcs & -> & _).
  now rewrite defined_map_Some.
Qed.

Lemma pie_arcs_double_order (m i : nat) :
  nth_error (pie_order_double values) m = Some i ->
  nth_error (pie_arcs_double guarded values) i =
  nth_error (laid_out_double values
               (pie_factor_double guarded (d3_sum_double values)) 0 0 0
               (pie_order_double values)) m.
Proof.
  unfold pie_arcs_double. destruct pie_double_defined as (arcs & -> & _ & H).
  rewrite defined_map_Some. apply H.
Qed.

Lemma pie_arcs_double_length :
  length (pie_arcs_double guarded values) = length values.
Proof.
  unfold pie_arcs_double. destruct pie_double_defined as (arcs & -> & H & _).
  now rewrite defined_map_Some.
Qed.

(** Every arc of the layout is one of those made one after the
    other. *)
Lemma pie_arcs_double_In (d : ArcDouble) :
  In d (pie_arcs_double guarded values) ->
  In d (laid_out_double values
          (pie_factor_double guarded (d3_sum_double values)) 0 0 0
          (pie_order_double values)).
Proof.
  intros Hin. apply In_nth_error in Hin as [i Hi].
  assert (Hlt : (i < length values)%nat).
  { rewrite <- pie_arcs_double_length. apply nth_error_Some. congruence. }
  apply pie_order_double_In in Hlt. apply In_nth_error in Hlt as [m Hm].
  rewrite (pie_arcs_double_order _ _ Hm) in Hi.
  eapply nth_error_In, Hi.
Qed.

(** Arc [i] carries datum [i], and ends where it starts plus the value
    times the factor of the layout. *)
Lemma pie_arcs_double_nth (i : nat) (v : float) (d : ArcDouble) :
  nth_error values i = Some v ->
  nth_error (pie_arcs_double guarded values) i = Some d ->
  ddata d = v /\ dvalue d = v /\
  dendAngle d =
    dstartAngle d + (v * pie_factor_double guarded (d3_sum_double values) + 0) /\
  dpadAngle d = 0.
Proof.
  intros Hv Hd.
  assert (Hi : (i < length values)%nat)
    by (apply nth_error_Some; congruence).
  assert (Hin : In i (pie_order_double values))
    by now apply pie_order_double_In.
  apply In_nth_error in Hin as [m Hm].
  rewrite (pie_arcs_double_order _ _ Hm) in Hd.
  apply laid_out_double_nth in Hd as (j & Hj & H1 & H2 & H3 & H4).
  rewrite Hm in Hj. injection Hj as <-.
  rewrite (nth_error_nth _ _ nan Hv) in H1, H2, H3.
  auto.
Qed.

End PieDouble.

(** Two lists of one length are related when their entries are, index
    by index. *)
Lemma Forall2_nth_error {A B : Type} (P : A -> B -> Prop) :
  forall (l1 : list A) (l2 : list B),
  length l1 = length l2 ->
  (forall i a b, nth_error l1 i = Some a -> nth_error l2 i = Some b -> P a b) ->
  Forall2 P l1 l2.
Proof.
  induction l1 as [|a l1 IH]; intros [|b l2] Hl H; try discriminate.
  - constructor.
  - constructor.
    + now apply (H 0%nat).
    + apply IH; [simpl in Hl; lia|].
      intros i a' b' Ha Hb. now apply (H (S i)).
Qed.

Lemma Forall2_indexed {A B C : Type} (P : A -> C -> Prop) (f : nat -> B -> C)
    (Q : A -> B -> Prop) :
  (forall i a b, Q a b -> P a (f i b)) ->
  forall (l1 : list A) (l2 : list B) (s : nat),
  Forall2 Q l1 l2 ->
  Forall2 P l1 (map (fun '(i, d) => f i d) (combine (seq s (length l2)) l2)).
Proof.
  intros HPQ l1 l2 s H. revert s.
  induction H as [|a b l1 l2 Hab H IH]; intros s; simpl; constructor; auto.
Qed.

Section UpdateDouble.
Local Open Scope float_scope.
Variables (guarded : bool) (dps : list DoubleDataPoint) (vp : DoubleViewport).

(** What [update] appends: one path per arc of the layout, in the
    order of the array, with the radii of the viewport and the colour
    of its index. *)
Lemma update_paths_eq :
  update_paths guarded dps vp =
  Return
    (map (fun '(i, d) =>
            {| dpath_data := d;
               dinnerRadius := Math_min (dwidth vp) (dheight vp) / 2 - 50;
               douterRadius := Math_min (dwidth vp) (dheight vp) / 2;
               dfill := palette_color i |})
         (indexed (pie_arcs_double guarded (map dcount dps)))).
Proof.
  unfold update_paths. rewrite pie_arcs_double_defined.
  set (arcs := pie_arcs_double guarded (map dcount dps)).
  unfold indexed.
  change category20b with {| domain := seq 0 0; range := d3_category20b |}.
  rewrite (each_scale_fresh d3_category20b arcs 0).
  rewrite (map_combine_seq _ _ arcs 0).
  reflexivity.
Qed.

Lemma update_paths_length (path : list DoublePathElement) :
  update_paths guarded dps vp = Return path -> length path = length dps.
Proof.
  rewrite update_paths_eq. intros H. injection H as <-.
  unfold indexed.
  rewrite length_map, length_combine, length_seq, Nat.min_id.
  now rewrite pie_arcs_double_length, length_map.
Qed.

Lemma update_paths_data (path : list DoublePathElement) :
  update_paths guarded dps vp = Return path ->
  map dpath_data path = pie_arcs_double guarded (map dcount dps).
Proof.
  rewrite update_paths_eq. intros H. injection H as <-.
  unfold indexed. rewrite map_map.
  rewrite <- (map_id (pie_arcs_double guarded (map dcount dps))) at 3.
  set (arcs := pie_arcs_double guarded (map dcount dps)).
  generalize 0%nat. induction arcs as [|d arcs IH]; intros s; simpl; trivial.
  now rewrite IH.
Qed.

End UpdateDouble.

(** [d3.sum] of zeros is 0. *)
Lemma d3_sum_double_zeros (values : list float) :
  Forall (fun v => v = 0%float) values -> d3_sum_double values = 0%float.
Proof.
  unfold d3_sum_double. intros H.
  induction H as [|v l -> _ IH]; simpl; trivial.
Qed.

Section UpdateAngles.
Local Open Scope float_scope.
Variables (guarded : bool) (dps : list DoubleDataPoint) (vp : DoubleViewport).

(** The path of each data point: its value, its radii and its angles. *)
Lemma update_paths_Forall2 :
  exists path,
    update_paths guarded dps vp = Return path /\
    Forall2 (fun dp p =>
               dvalue (dpath_data p) = dcount dp /\
               douterRadius p = Math_min (dwidth vp) (dheight vp) / 2 /\
               dendAngle (dpath_data p) =
                 dstartAngle (dpath_data p) +
                 (dcount dp *
                  pie_factor_double guarded (d3_sum_double (map dcount dps)) +
                  0))
            dps path.
Proof.
  eexists. split; [apply update_paths_eq|].
  unfold indexed.
  apply (Forall2_indexed _ _
           (fun dp d =>
              dvalue d = dcount dp /\
              dendAngle d =
                dstartAngle d +
                (dcount dp *
                 pie_factor_double guarded (d3_sum_double (map dcount dps)) +
                 0))).
  - intros i dp d [Hv He]. simpl. auto.
  - apply Forall2_nth_error.
    + now rewrite pie_arcs_double_length, length_map.
    + intros i dp d Hdp Hd.
      destruct (pie_arcs_double_nth guarded (map dcount dps) i (dcount dp) d)
        as (_ & Hv & He & _); auto.
      now apply map_nth_error.
Qed.

(** Every path [update] appends carries an arc the layout made. *)
Lemma update_paths_In (path : list DoublePathElement) (p : DoublePathElement) :
  update_paths guarded dps vp = Return path -> In p path ->
  In (dpath_data p)
     (laid_out_double (map dcount dps)
        (pie_factor_double guarded (d3_sum_double (map dcount dps))) 0 0 0
        (pie_order_double (map dcount dps))).
Proof.
  intros Hu Hp. apply pie_arcs_double_In.
  rewrite <- (update_paths_data _ _ _ _ Hu). now apply in_map.
Qed.

End UpdateAngles.

(** * The claims *)

(** ** C1 *)




(** ** C2 *)

(** C2, as stated, fails: an update whose first data view has no table
    has nothing absent among the three, and yet the builder returns no
    view model. *)
Lemma visualTransform_without_table_no_view_model :
  ~ null_iff_absent_else_view_model options_without_table.
Proof.
  intros [_ H]. destruct H as [vm Hvm]; [|discriminate Hvm].
  rewrite <- first_data_view_none. discriminate.
Qed.

(** C2, amended: the builder returns [null] if and only if the update
    record, its data-view collection or the first entry of the
    collection is absent; when the first data view has a table with a
    rows array it returns a (possibly empty) view model. *)
Theorem visualTransform_null_iff_absent (options : option VisualUpdateOptions) :
  (visualTransform options = Return None <->
   update_absent options \/ data_views_absent options \/
   first_entry_absent options) /\
  (forall rs, table_rows options = Some rs ->
     exists vm, visualTransform options = Return (Some vm)).
Proof.
  split.
  - rewrite visualTransform_null. apply first_data_view_none.
  - intros rs H. rewrite (visualTransform_rows _ _ H). eauto.
Qed.

Lemma visualTransform_null_iff_absent_witness :
  visualTransform None = Return None /\
  exists vm, visualTransform (options_of viewport_200 []) = Return (Some vm).
Proof.
  split.
  - apply (proj1 (visualTransform_null_iff_absent None)). now left.
  - apply (proj2 (visualTransform_null_iff_absent (options_of viewport_200 []))
             []).
    reflexivity.
Defined.

(** ** C3 *)

(** With a null view model [update] throws, whatever the surface. *)
Lemma update_null_throws (svg : SvgElement) (options : option VisualUpdateOptions) :
  visualTransform options = Return None ->
  snd (update svg options) = Throw.
Proof.
  intros H. unfold update. rewrite H. now destruct options.
Qed.

(** C3 on the code: for an update record without data views the
    builder returns [null]; [update] then resizes the surface, appends
    an empty group and throws on reading [viewModel.dataPoints].  The
    donut drawn before is still on the surface. *)
Theorem update_null_view_model_throws :
  visualTransform options_without_data = Return None /\
  snd (update drawn_once options_without_data) = Throw /\
  children (fst (update drawn_once options_without_data)) =
    [ donut_of points_ABCD viewport_200;
      {| g_transform := (200 / 2, 200 / 2); paths := []; legends := [] |} ] /\
  length (paths (donut_of points_ABCD viewport_200)) = 4%nat.
Proof.
  split; [reflexivity|]. split; [reflexivity|]. split; [reflexivity|].
  apply donut_paths_length.
Qed.

(** ** C4 *)

(** C4, as stated, fails: for the rows (10,A), (20,B) the arc of A does
    not start at angle 0; the larger arc of B is laid out first. *)
Lemma arcs_laid_out_by_value :
  ~ drawn_in_input_order constructor viewport_200 rows_AB.
Proof.
  intros (g & Hu & _ & _ & Hch).
  unfold options_of in Hu.
  rewrite (update_appended constructor (options_record viewport_200 rows_AB)
             rows_AB eq_refl) in Hu.
  apply (f_equal fst) in Hu; cbn [fst] in Hu.
  apply appended_inj in Hu. subst g.
  rewrite donut_paths_data in Hch.
  change (map count (kept_rows rows_AB)) with [10; 20] in Hch.
  pose proof (pie_arcs_order [10; 20] 1 0) as H0.
  rewrite pie_order_10_20 in H0. specialize (H0 eq_refl). simpl in H0.
  destruct (pie_arcs [10; 20]) as [|d0 l]; [discriminate H0|].
  injection H0 as ->. destruct Hch as [Hs _]. simpl in Hs.
  rewrite pie_factor_nonzero in Hs by (unfold d3_sum; simpl; lra).
  unfold d3_sum, tau in Hs; simpl in Hs.
  pose proof PI_RGT_0. lra.
Qed.

(** C4, amended: the data points of the view model are the kept rows in
    input order; arc [i] carries the count of data point [i] and legend
    row [i] the index [i], so arcs and legend rows are emitted in that
    same order.  Around the circle the arcs are placed by the default
    order of the pie layout, by descending count: read in that order
    they follow one another from angle 0. *)
Theorem arcs_emitted_in_input_order (svg : SvgElement)
    (o : VisualUpdateOptions) (rs : list DataViewTableRow) :
  table_rows (Some o) = Some rs ->
  exists vm g,
    visualTransform (Some o) = Return (Some vm) /\
    dataPoints vm =
      map data_point_of
          (filter (fun r => negb (absent_or_empty (slice1 r))) rs) /\
    update svg (Some o) = (appended svg (viewport o) g, Return tt) /\
    map (fun pth => value (path_data pth)) (paths g) =
      map count (dataPoints vm) /\
    map legend_data (legends g) = seq 0 (length (dataPoints vm)) /\
    exists order ordered,
      Permutation order (seq 0 (length (dataPoints vm))) /\
      Sorted (value_ge (map count (dataPoints vm))) order /\
      map (nth_error (map path_data (paths g))) order = map Some ordered /\
      chained 0 ordered.
Proof.
  intros H.
  exists {| dataPoints := kept_rows rs |}, (donut_of (kept_rows rs) (viewport o)).
  cbn [dataPoints].
  split; [now apply visualTransform_rows|]. split; [reflexivity|].
  split; [now apply update_appended|]. split; [apply donut_paths_value|].
  split.
  { rewrite donut_legends, map_map. cbn [legend_of legend_data]. apply map_id. }
  destruct (pie_arcs_chained (map count (kept_rows rs))) as (ordered & Ho & Hc).
  exists (pie_order (map count (kept_rows rs))), ordered.
  split.
  { rewrite <- (length_map count). apply pie_order_perm. }
  split; [apply sort_by_value_sorted|].
  split; [|exact Hc].
  now rewrite donut_paths_data.
Qed.

Lemma arcs_emitted_in_input_order_witness :
  exists g,
    update constructor (options_of viewport_200 rows_AB) =
      (appended constructor viewport_200 g, Return tt) /\
    map (fun pth => value (path_data pth)) (paths g) = [10; 20] /\
    map legend_data (legends g) = [0%nat; 1%nat].
Proof.
  destruct (arcs_emitted_in_input_order constructor
              (options_record viewport_200 rows_AB) rows_AB eq_refl)
    as (vm & g & _ & Hdps & Hu & Hv & Hl & _).
  exists g. rewrite Hdps in Hv, Hl. split; [exact Hu|]. split; [exact Hv|exact Hl].
Defined.

(** ** C5 *)

(** C5, as stated, fails: for the rows (0,X), (0,Y) two arc paths are
    appended to the surface. *)
Lemma zero_counts_still_draw_arcs :
  ~ zero_sum_draws_no_arc constructor {| dataPoints := points_XY |} viewport_200.
Proof.
  intros (g & Hr & _ & Hp).
  group_of Hr. subst g.
  apply (f_equal (@length PathElement)) in Hp.
  rewrite donut_paths_length in Hp. discriminate Hp.
Qed.

(** C5, amended: [update] has no handling of a zero sum of its own and
    appends one arc path per data point whatever the counts; the angles
    are those of d3's pie layout, computed on doubles.  With a release
    of the layout that guards the division ([k = sum ? ... : 0]), finite
    counts whose sum, as [d3.sum] computes it, is 0 give every arc the
    start angle 0 and the end angle 0.  With a release that divides
    whatever the sum, counts that are all 0 give every arc the end angle
    NaN, and a start angle that is 0 or NaN. *)
Theorem zero_sum_angles_on_doubles :
  (forall guarded dps vp,
     exists path,
       update_paths guarded dps vp = Return path /\
       length path = length dps) /\
  (forall dps vp,
     Forall (fun dp => is_finite (dcount dp) = true) dps ->
     d3_sum_double (map dcount dps) = 0%float ->
     exists path,
       update_paths true dps vp = Return path /\
       Forall (fun p =>
                 dstartAngle (dpath_data p) = 0%float /\
                 dendAngle (dpath_data p) = 0%float)
              path) /\
  (forall dps vp,
     Forall (fun dp => dcount dp = 0%float) dps ->
     exists path,
       update_paths false dps vp = Return path /\
       Forall (fun p =>
                 dendAngle (dpath_data p) = nan /\
                 (dstartAngle (dpath_data p) = 0%float \/
                  dstartAngle (dpath_data p) = nan))
              path).
Proof.
  split; [|split].
  - intros guarded dps vp.
    destruct (update_paths_Forall2 guarded dps vp) as (path & Hu & _).
    exists path. split; [exact Hu|]. now apply update_paths_length in Hu.
  - intros dps vp Hfin Hsum.
    destruct (update_paths_Forall2 true dps vp) as (path & Hu & _).
    exists path. split; [exact Hu|].
    apply Forall_forall. intros p Hp.
    apply (update_paths_In _ _ _ _ _ Hu) in Hp.
    rewrite Hsum in Hp.
    apply (laid_out_double_zero _ _ _ _ _ _ _ eq_refl eq_refl eq_refl) in Hp;
      trivial.
    intros i Hi. apply pie_order_double_In in Hi.
    rewrite length_map in Hi.
    rewrite (nth_indep _ nan (dcount {| dcount := 0; dcategory := "" |}))
      by now rewrite length_map.
    rewrite map_nth.
    rewrite Forall_forall in Hfin. apply Hfin, nth_In, Hi.
  - intros dps vp Hz.
    destruct (update_paths_Forall2 false dps vp) as (path & Hu & _).
    exists path. split; [exact Hu|].
    assert (Hsum : d3_sum_double (map dcount dps) = 0%float).
    { apply d3_sum_double_zeros. now apply Forall_map. }
    apply Forall_forall. intros p Hp.
    apply (update_paths_In _ _ _ _ _ Hu) in Hp.
    rewrite Hsum in Hp.
    apply (laid_out_double_nan _ _ _ _ _ _ _ (or_introl eq_refl) eq_refl
             eq_refl) in Hp; trivial.
    intros i Hi. apply pie_order_double_In in Hi.
    rewrite length_map in Hi.
    rewrite (nth_indep _ nan (dcount {| dcount := 0; dcategory := "" |}))
      by now rewrite length_map.
    rewrite map_nth.
    rewrite Forall_forall in Hz. apply Hz, nth_In, Hi.
Qed.

Lemma zero_sum_angles_on_doubles_witness :
  (exists path,
     update_paths true dpoints_XY dviewport_200 = Return path /\
     Forall (fun p =>
               dstartAngle (dpath_data p) = 0%float /\
               dendAngle (dpath_data p) = 0%float)
            path) /\
  (exists path,
     update_paths false dpoints_XY dviewport_200 = Return path /\
     Forall (fun p =>
               dendAngle (dpath_data p) = nan /\
               (dstartAngle (dpath_data p) = 0%float \/
                dstartAngle (dpath_data p) = nan))
            path).
Proof.
  split.
  - apply (proj1 (proj2 zero_sum_angles_on_doubles) dpoints_XY dviewport_200).
    + repeat constructor.
    + reflexivity.
  - apply (proj2 (proj2 zero_sum_angles_on_doubles) dpoints_XY dviewport_200).
    repeat constructor.
Defined.

(** ** C6 *)

(** C6: the view model holds, in order, exactly the rows whose category
    is neither absent nor empty; a row with a non-empty category is
    kept with its count, a count of 0 included. *)
Theorem visualTransform_keeps_categories (options : option VisualUpdateOptions)
    (rs : list DataViewTableRow) :
  table_rows options = Some rs ->
  exists vm,
    visualTransform options = Return (Some vm) /\
    dataPoints vm =
      map data_point_of
          (filter (fun r => negb (absent_or_empty (slice1 r))) rs) /\
    (forall dp, In dp (dataPoints vm) <->
       exists r, In r rs /\ slice1 r = Some (category dp) /\
         category dp <> "" /\ count dp = slice0 r) /\
    (forall s, s <> "" -> In {| slice0 := 0; slice1 := Some s |} rs ->
       In {| count := 0; category := s |} (dataPoints vm)).
Proof.
  intros H. exists {| dataPoints := kept_rows rs |}.
  split; [now apply visualTransform_rows|]. split; [reflexivity|].
  assert (Hin : forall dp, In dp (kept_rows rs) <->
            exists r, In r rs /\ slice1 r = Some (category dp) /\
              category dp <> "" /\ count dp = slice0 r).
  { intros dp. unfold kept_rows. rewrite in_map_iff. split.
    - intros (r & <- & Hr). apply filter_In in Hr as [Hr Hc].
      exists r. destruct r as [c [[|a s]|]]; simpl in *; try discriminate.
      repeat split; trivial. discriminate.
    - intros (r & Hr & Hs & Hne & Hc). exists r. split.
      + destruct dp as [c s], r as [c' s']; simpl in *. subst. reflexivity.
      + apply filter_In. split; trivial. rewrite Hs. simpl.
        destruct (category dp); [contradiction|reflexivity]. }
  split; [exact Hin|].
  intros s Hs Hr. apply Hin. simpl. eauto.
Qed.

Lemma visualTransform_keeps_categories_witness :
  exists vm,
    visualTransform (options_of viewport_200 rows_mixed) = Return (Some vm) /\
    dataPoints vm =
      [ {| count := 0; category := "X" |}; {| count := 3; category := "Y" |} ].
Proof.
  destruct (visualTransform_keeps_categories
              (options_of viewport_200 rows_mixed) rows_mixed eq_refl)
    as (vm & Hvm & Hdps & _).
  exists vm. split; [exact Hvm|exact Hdps].
Defined.

(** ** C7 *)

(** C7: the palette is one fixed list of 20 colours, and the fill of
    the arc at position [i] is entry [i mod 20] of it, whatever was
    drawn before and whatever the viewport. *)
Theorem arc_fill_from_palette :
  (20 <= length d3_category20b)%nat /\
  forall svg vm vp,
    exists g,
      render svg (Some vm) vp = (appended svg vp g, Return tt) /\
      map fill (paths g) =
        map (fun i => nth (i mod length d3_category20b) d3_category20b
                          "undefined")
            (seq 0 (length (dataPoints vm))).
Proof.
  split; [simpl; lia|].
  intros svg vm vp. exists (donut_of (dataPoints vm) vp).
  split; [apply render_appended|apply donut_paths_fill].
Qed.

(** ** C8 *)

(** C8 on the code: there is one legend row per data point, row [i] has
    the fill of arc [i] and sits [i] row heights below the top of a
    block centred on the donut; but its text is the index [i] written
    out, not the category.  For the single row (10,A) the legend reads
    "0" where the category is "A". *)
Theorem legend_text_is_index :
  (forall svg vm vp,
     exists g,
       render svg (Some vm) vp = (appended svg vp g, Return tt) /\
       length (legends g) = length (dataPoints vm) /\
       map (fun l => rect_fill (legend_rect l)) (legends g) = map fill (paths g) /\
       map legend_transform (legends g) =
         map (fun i => (-36, INR i * 22 - 22 * INR (length (dataPoints vm)) / 2))
             (seq 0 (length (dataPoints vm))) /\
       map (fun l => text (legend_text l)) (legends g) =
         map string_of_index (seq 0 (length (dataPoints vm)))) /\
  (exists g,
     update constructor (options_of viewport_200 rows_A) =
       (appended constructor viewport_200 g, Return tt) /\
     map (fun l => text (legend_text l)) (legends g) = ["0"] /\
     map category (kept_rows rows_A) = ["A"]).
Proof.
  split.
  - intros svg vm vp. exists (donut_of (dataPoints vm) vp).
    split; [apply render_appended|].
    rewrite donut_paths_fill, donut_legends, !map_map, length_map, length_seq.
    cbn [legend_of legend_rect rect_fill legend_transform legend_text text].
    repeat split.
    apply map_ext. intros i. unfold legendRectSize, legendSpacing.
    f_equal; lra.
  - exists (donut_of (kept_rows rows_A) viewport_200). split.
    + exact (update_appended constructor (options_record viewport_200 rows_A)
               rows_A eq_refl).
    + rewrite donut_legends. split; reflexivity.
Qed.

(** ** C9 *)

(** C9, as stated, fails: after the second call the surface holds two
    groups, after the first call one. *)
Lemma second_render_adds_a_group :
  ~ second_render_adds_nothing constructor {| dataPoints := points_ABCD |}
      viewport_200.
Proof.
  unfold second_render_adds_nothing. rewrite !render_appended.
  cbn [fst]. intros H.
  apply (f_equal (fun s => length (children s))) in H.
  cbn [appended children constructor] in H.
  rewrite !length_app in H. simpl in H. discriminate H.
Qed.

(** C9, amended: a call appends one group of arcs and legend rows after
    what the surface already holds and removes nothing; the group
    depends on the view model and the viewport only, so a second call
    with the same pair appends the same group once more. *)
Theorem render_twice_appends_twice (svg : SvgElement)
    (vm : DonutSlicerViewModel) (vp : IViewport) :
  exists g,
    render svg (Some vm) vp = (appended svg vp g, Return tt) /\
    render (appended svg vp g) (Some vm) vp =
      ({| attr_width := Some (width vp); attr_height := Some (height vp);
          children := children svg ++ [g; g] |},
       Return tt).
Proof.
  exists (donut_of (dataPoints vm) vp).
  rewrite !render_appended. split; [reflexivity|].
  unfold appended; cbn [children]. now rewrite <- app_assoc.
Qed.

(** ** C10 *)

(** C10: past its null guard the builder reads [table.rows] unguarded.
    When the first data view has no table (or the table no rows array)
    the builder throws: it returns neither [null] nor a view model.
    When the rows are there it returns a view model. *)
Theorem visualTransform_needs_table (options : option VisualUpdateOptions)
    (dv : DataView) :
  first_data_view options = Some dv ->
  (table dv = None -> visualTransform options = Throw) /\
  (forall t, table dv = Some t -> rows t = None ->
     visualTransform options = Throw) /\
  (forall t rs, table dv = Some t -> rows t = Some rs ->
     exists vm, visualTransform options = Return (Some vm)) /\
  visualTransform options <> Return None.
Proof.
  intros H. rewrite (visualTransform_first _ _ H).
  repeat split.
  - now intros ->.
  - now intros t -> ->.
  - intros t rs -> ->. eauto.
  - destruct (table dv) as [t|]; [|discriminate].
    destruct (rows t); discriminate.
Qed.

Lemma visualTransform_needs_table_witness :
  visualTransform options_without_table = Throw.
Proof.
  apply (proj1 (visualTransform_needs_table options_without_table
                  {| metadata := no_objects; table := None |} eq_refl)).
  reflexivity.
Defined.

(** * Further properties of the code *)

(** ** The builder *)

(** X1: the builder reads the first data view and nothing else: two
    update records with the same first data view, whatever their
    viewports and their other data views, give the same result. *)
Theorem visualTransform_first_data_view_only
    (options1 options2 : option VisualUpdateOptions) :
  first_data_view options1 = first_data_view options2 ->
  visualTransform options1 = visualTransform options2.
Proof.
  intros H. destruct (first_data_view options1) as [dv|] eqn:E1.
  - rewrite (visualTransform_first _ _ E1).
    symmetry in H. now rewrite (visualTransform_first _ _ H).
  - symmetry in H.
    apply visualTransform_null in E1. apply visualTransform_null in H.
    congruence.
Qed.

Lemma visualTransform_first_data_view_only_witness :
  visualTransform
    (Some {| viewport := {| width := 0; height := 50 |};
             dataViews :=
               Some [Some {| metadata := no_objects;
                             table := Some {| rows := Some rows_AB |} |};
                     None;
                     Some {| metadata := no_objects; table := None |}] |}) =
  visualTransform (options_of viewport_200 rows_AB).
Proof.
  apply visualTransform_first_data_view_only. reflexivity.
Defined.

(** X2: the builder keeps the order of the rows and removes no
    duplicate: the data points of a table made of two parts are the
    data points of the first part followed by those of the second. *)
Theorem visualTransform_app (options1 options2 options : option VisualUpdateOptions)
    (rs1 rs2 : list DataViewTableRow) :
  table_rows options1 = Some rs1 ->
  table_rows options2 = Some rs2 ->
  table_rows options = Some (rs1 ++ rs2) ->
  exists dps1 dps2,
    visualTransform options1 = Return (Some {| dataPoints := dps1 |}) /\
    visualTransform options2 = Return (Some {| dataPoints := dps2 |}) /\
    visualTransform options = Return (Some {| dataPoints := dps1 ++ dps2 |}).
Proof.
  intros H1 H2 H. exists (kept_rows rs1), (kept_rows rs2).
  rewrite (visualTransform_rows _ _ H1), (visualTransform_rows _ _ H2),
    (visualTransform_rows _ _ H), kept_rows_app.
  auto.
Qed.

Lemma visualTransform_app_witness :
  visualTransform (options_of viewport_200 (rows_AB ++ rows_AB)) =
  Return (Some {| dataPoints :=
                    [ {| count := 10; category := "A" |};
                      {| count := 20; category := "B" |};
                      {| count := 10; category := "A" |};
                      {| count := 20; category := "B" |} ] |}).
Proof.
  destruct (visualTransform_app (options_of viewport_200 rows_AB)
              (options_of viewport_200 rows_AB)
              (options_of viewport_200 (rows_AB ++ rows_AB))
              rows_AB rows_AB eq_refl eq_refl eq_refl)
    as (dps1 & dps2 & H1 & H2 & H).
  rewrite H. injection H1 as <-. injection H2 as <-. reflexivity.
Defined.

Lemma kept_rows_length (rs : list DataViewTableRow) :
  (length (kept_rows rs) <= length rs)%nat /\
  (length (kept_rows rs) = length rs <->
   Forall (fun r => absent_or_empty (slice1 r) = false) rs).
Proof.
  unfold kept_rows. rewrite length_map.
  induction rs as [|r rs [IHle IHeq]]; simpl.
  - split; [lia|]. split; constructor.
  - destruct (absent_or_empty (slice1 r)) eqn:E; simpl.
    + split; [lia|]. split.
      * intros H. lia.
      * intros H. inversion H; congruence.
    + split; [lia|]. split.
      * intros H. constructor; trivial. apply IHeq. lia.
      * intros H. inversion H; subst. f_equal. now apply IHeq.
Qed.

Lemma kept_rows_category (rs : list DataViewTableRow) :
  Forall (fun dp => category dp <> "") (kept_rows rs).
Proof.
  unfold kept_rows. apply Forall_forall. intros dp Hin.
  apply in_map_iff in Hin as (r & <- & Hr). apply filter_In in Hr as [_ Hc].
  destruct r as [c [[|a s]|]]; simpl in *; discriminate.
Qed.

(** X3: a view model never has more data points than the table has
    rows, it has as many exactly when no row lacks a category, and no
    data point in it has an empty category. *)
Theorem visualTransform_size (options : option VisualUpdateOptions)
    (rs : list DataViewTableRow) :
  table_rows options = Some rs ->
  exists vm,
    visualTransform options = Return (Some vm) /\
    (length (dataPoints vm) <= length rs)%nat /\
    (length (dataPoints vm) = length rs <->
     Forall (fun r => slice1 r <> None /\ slice1 r <> Some "") rs) /\
    Forall (fun dp => category dp <> "") (dataPoints vm).
Proof.
  intros H. exists {| dataPoints := kept_rows rs |}. cbn [dataPoints].
  split; [now apply visualTransform_rows|].
  destruct (kept_rows_length rs) as [Hle Heq].
  split; [exact Hle|]. split; [|apply kept_rows_category].
  rewrite Heq. split; apply Forall_impl; intros [c [[|a s]|]]; simpl;
    try discriminate; try tauto.
  split; discriminate.
Qed.

Lemma visualTransform_size_witness :
  exists vm,
    visualTransform (options_of viewport_200 rows_mixed) = Return (Some vm) /\
    (length (dataPoints vm) <= 4)%nat.
Proof.
  destruct (visualTransform_size (options_of viewport_200 rows_mixed)
              rows_mixed eq_refl) as (vm & Hvm & Hle & _).
  exists vm. split; [exact Hvm|exact Hle].
Defined.

(** ** When [update] completes and what it leaves behind *)

Lemma update_throws_untouched (svg : SvgElement)
    (options : option VisualUpdateOptions) :
  visualTransform options = Throw \/ options = None ->
  update svg options = (svg, Throw).
Proof.
  unfold update. intros [H| ->]; [now rewrite H|reflexivity].
Qed.

Lemma table_rows_first (options : option VisualUpdateOptions) :
  table_rows options = None ->
  first_data_view options = None \/ visualTransform options = Throw.
Proof.
  unfold table_rows. destruct (first_data_view options) as [dv|] eqn:E; [|now left].
  intros H. right. rewrite (visualTransform_first _ _ E).
  destruct (table dv) as [t|]; [|reflexivity]. now rewrite H.
Qed.

(** X4: [update] completes exactly when the first data view is there
    and has a table with a rows array.  Otherwise it throws: leaving the
    surface untouched when the update record is absent or the table or
    its rows are missing, and leaving it resized with an empty group
    appended when the record is there but the builder returned
    [null]. *)
Theorem update_completes_iff (svg : SvgElement)
    (options : option VisualUpdateOptions) :
  (snd (update svg options) = Return tt <->
   exists rs, table_rows options = Some rs) /\
  (options = None \/
   (first_data_view options <> None /\ table_rows options = None) ->
   update svg options = (svg, Throw)) /\
  (forall o, options = Some o -> first_data_view options = None ->
     update svg options = (appended svg (viewport o) (empty_group (viewport o)),
                           Throw)).
Proof.
  split; [|split].
  - split.
    + intros H. destruct (table_rows options) as [rs|] eqn:E; [now exists rs|].
      exfalso. apply table_rows_first in E as [E|E].
      * apply visualTransform_null in E.
        rewrite (update_null_throws _ _ E) in H. discriminate.
      * rewrite update_throws_untouched in H by now left. discriminate.
    + intros [rs H]. destruct options as [o|]; [|discriminate].
      now rewrite (update_appended _ _ _ H).
  - intros [H|[Hf Ht]]; apply update_throws_untouched; [now right|left].
    apply table_rows_first in Ht as [Ht|Ht]; [contradiction|exact Ht].
  - intros o -> Hf. apply visualTransform_null in Hf.
    unfold update. rewrite Hf. apply render_null.
Qed.

(** X5: the surface keeps the history of the calls.  After a sequence
    of calls of [update] that each carry a table, the surface holds
    what it held before followed by one group per call, in the order
    of the calls, and it has the size of the last viewport. *)
Theorem updates_history (svg : SvgElement)
    (calls : list (VisualUpdateOptions * list DataViewTableRow)) :
  Forall (fun c => table_rows (Some (fst c)) = Some (snd c)) calls ->
  children (updates svg (map (fun c => Some (fst c)) calls)) =
    children svg ++
    map (fun c => donut_of (kept_rows (snd c)) (viewport (fst c))) calls /\
  (forall o rs, last (map Some calls) None = Some (o, rs) ->
     attr_width (updates svg (map (fun c => Some (fst c)) calls)) =
       Some (width (viewport o)) /\
     attr_height (updates svg (map (fun c => Some (fst c)) calls)) =
       Some (height (viewport o))).
Proof.
  revert svg. induction calls as [|[o rs] calls IH]; intros svg Hall.
  - split; [simpl; now rewrite app_nil_r|]. intros o rs H. discriminate H.
  - inversion Hall as [|? ? Hc Hrest]; subst. cbn [fst snd] in Hc.
    unfold updates. cbn [map fold_left fst snd].
    rewrite (update_appended svg o rs Hc). cbn [fst].
    fold (updates (appended svg (viewport o) (donut_of (kept_rows rs) (viewport o)))
             (map (fun c => Some (fst c)) calls)).
    destruct (IH (appended svg (viewport o) (donut_of (kept_rows rs) (viewport o)))
                Hrest) as [IHc IHs].
    split.
    + rewrite IHc. cbn [appended children]. now rewrite <- app_assoc.
    + intros o' rs' Hlast. destruct calls as [|c calls].
      * simpl in Hlast. injection Hlast as <- <-. now split.
      * apply (IHs o' rs'). exact Hlast.
Qed.

Lemma updates_history_witness :
  children
    (updates drawn_once
       [options_of viewport_200 rows_AB;
        options_of {| width := 0; height := 0 |} []]) =
  [ donut_of points_ABCD viewport_200;
    donut_of (kept_rows rows_AB) viewport_200;
    donut_of [] {| width := 0; height := 0 |} ].
Proof.
  refine (proj1 (updates_history drawn_once
                   [(options_record viewport_200 rows_AB, rows_AB);
                    (options_record {| width := 0; height := 0 |} [], [])]
                   _)).
  repeat constructor.
Defined.

Lemma kept_rows_blank (r : DataViewTableRow) (rs1 rs2 : list DataViewTableRow) :
  absent_or_empty (slice1 r) = true ->
  kept_rows (rs1 ++ r :: rs2) = kept_rows (rs1 ++ rs2).
Proof.
  intros H. rewrite !kept_rows_app. f_equal.
  change (r :: rs2) with ([r] ++ rs2). rewrite kept_rows_app.
  unfold kept_rows at 1. simpl. now rewrite H.
Qed.

(** X6: a row without a category leaves no trace: putting a row whose
    category is absent or empty anywhere in the table changes neither
    the arcs, nor their colours, nor the legend. *)
Theorem update_ignores_blank_rows (svg : SvgElement)
    (o1 o2 : VisualUpdateOptions) (r : DataViewTableRow)
    (rs1 rs2 : list DataViewTableRow) :
  slice1 r = None \/ slice1 r = Some "" ->
  viewport o1 = viewport o2 ->
  table_rows (Some o1) = Some (rs1 ++ rs2) ->
  table_rows (Some o2) = Some (rs1 ++ r :: rs2) ->
  update svg (Some o2) = update svg (Some o1).
Proof.
  intros Hr Hvp H1 H2.
  rewrite (update_appended _ _ _ H1), (update_appended _ _ _ H2), Hvp.
  rewrite kept_rows_blank; trivial.
  destruct Hr as [-> | ->]; reflexivity.
Qed.

Lemma update_ignores_blank_rows_witness :
  update constructor
    (options_of viewport_200
       [ {| slice0 := 10; slice1 := Some "A" |};
         {| slice0 := 99; slice1 := None |};
         {| slice0 := 20; slice1 := Some "B" |} ]) =
  update constructor (options_of viewport_200 rows_AB).
Proof.
  apply (update_ignores_blank_rows constructor
           (options_record viewport_200 rows_AB)
           (options_record viewport_200
              [ {| slice0 := 10; slice1 := Some "A" |};
                {| slice0 := 99; slice1 := None |};
                {| slice0 := 20; slice1 := Some "B" |} ])
           {| slice0 := 99; slice1 := None |}
           [ {| slice0 := 10; slice1 := Some "A" |} ]
           [ {| slice0 := 20; slice1 := Some "B" |} ]);
    [now left|reflexivity..].
Defined.

Lemma kept_rows_none (rs : list DataViewTableRow) :
  Forall (fun r => slice1 r = None \/ slice1 r = Some "") rs ->
  kept_rows rs = [].
Proof.
  induction rs as [|r rs IH]; intros H; [reflexivity|].
  inversion H as [|? ? Hr Hrest]; subst.
  change (r :: rs) with ([] ++ r :: rs). rewrite kept_rows_blank.
  - now apply IH.
  - destruct Hr as [-> | ->]; reflexivity.
Qed.

Lemma donut_of_nil (vp : IViewport) : donut_of [] vp = empty_group vp.
Proof.
  unfold donut_of, empty_group, indexed.
  pose proof (pie_arcs_length (map count [])) as H.
  destruct (pie_arcs (map count [])); [reflexivity|discriminate H].
Qed.

(** X7: when no row has a category, an empty table included, [update]
    completes and appends a group with no arc and no legend row: the
    group it also leaves behind when it throws on a null view model. *)
Theorem update_without_categories (svg : SvgElement) (o : VisualUpdateOptions)
    (rs : list DataViewTableRow) :
  table_rows (Some o) = Some rs ->
  Forall (fun r => slice1 r = None \/ slice1 r = Some "") rs ->
  update svg (Some o) =
  (appended svg (viewport o) (empty_group (viewport o)), Return tt).
Proof.
  intros H Hall. rewrite (update_appended _ _ _ H).
  now rewrite (kept_rows_none _ Hall), donut_of_nil.
Qed.

Lemma update_without_categories_witness :
  update constructor (options_of viewport_200 []) =
  (appended constructor viewport_200 (empty_group viewport_200), Return tt).
Proof.
  apply (update_without_categories constructor
           (options_record viewport_200 []) [] eq_refl).
  constructor.
Defined.

(** ** Every slot of the layout is filled *)

Lemma pie_arcs_data (values : list R) : map data (pie_arcs values) = values.
Proof.
  rewrite (map_pie_arcs data (fun v => v)); [apply map_id|].
  intros i d E.
  destruct (pie_arcs_nth values i (pie_arcs_lt _ _ _ E)) as (d' & E' & Hd & _).
  congruence.
Qed.

Lemma pie_arcs_pad (values : list R) :
  Forall (fun d => padAngle d = 0) (pie_arcs values).
Proof.
  apply Forall_forall. intros d Hd. apply In_nth_error in Hd as [i E].
  destruct (pie_arcs_nth values i (pie_arcs_lt _ _ _ E)) as (d' & E' & _ & _ & _ & Hp).
  congruence.
Qed.

(** X15: although the layout fills its array out of order, slot by
    slot as the sort dictates, it leaves no hole: the array has one arc
    per datum, arc [i] carries datum [i] as its data and its value, and
    no arc is padded.  So the arc generator never meets [undefined],
    and on a view model that is not null [render] always completes. *)
Theorem pie_leaves_no_hole :
  (forall values,
     exists arcs,
       pie values = map Some arcs /\
       length arcs = length values /\
       map data arcs = values /\ map value arcs = values /\
       Forall (fun d => padAngle d = 0) arcs) /\
  (forall svg vm vp, snd (render svg (Some vm) vp) = Return tt).
Proof.
  split.
  - intros values. exists (pie_arcs values).
    split.
    { destruct (pie_defined values) as (arcs & Hp & _).
      pose proof (pie_arcs_defined values) as Hd.
      rewrite Hp, defined_map_Some in Hd. injection Hd as <-. exact Hp. }
    split; [apply pie_arcs_length|]. split; [apply pie_arcs_data|].
    split; [apply pie_arcs_value|apply pie_arcs_pad].
  - intros svg vm vp. now rewrite render_appended.
Qed.

(** ** Colours *)

Lemma d3_category20b_NoDup : NoDup d3_category20b.
Proof.
  change d3_category20b with (nodup string_dec d3_category20b).
  apply NoDup_nodup.
Qed.

Lemma palette_color_eq (i j : nat) :
  palette_color i = palette_color j <-> i mod 20 = j mod 20.
Proof.
  unfold palette_color, color_at.
  change (length d3_category20b) with 20%nat.
  split; [|now intros ->].
  apply (NoDup_nth d3_category20b "undefined").
  - apply d3_category20b_NoDup.
  - change (length d3_category20b) with 20%nat. apply Nat.mod_upper_bound. lia.
  - change (length d3_category20b) with 20%nat. apply Nat.mod_upper_bound. lia.
Qed.

(** X8: the 20 colours of the palette are pairwise different, so two
    arcs of one drawing have the same fill exactly when their
    positions differ by a multiple of 20; in particular the first 20
    arcs all have different colours. *)
Theorem arcs_share_fill_iff (svg : SvgElement) (vm : DonutSlicerViewModel)
    (vp : IViewport) :
  exists g,
    render svg (Some vm) vp = (appended svg vp g, Return tt) /\
    forall i j pi pj,
      nth_error (paths g) i = Some pi ->
      nth_error (paths g) j = Some pj ->
      (fill pi = fill pj <-> i mod 20 = j mod 20).
Proof.
  exists (donut_of (dataPoints vm) vp). split; [apply render_appended|].
  assert (Hfill : forall i p, nth_error (paths (donut_of (dataPoints vm) vp)) i = Some p ->
            fill p = palette_color i).
  { intros i p Hp.
    assert (H : nth_error (map fill (paths (donut_of (dataPoints vm) vp))) i
                = Some (fill p)) by now rewrite nth_error_map, Hp.
    rewrite donut_paths_fill, nth_error_map in H.
    destruct (nth_error (seq 0 (length (dataPoints vm))) i) as [x|] eqn:E;
      [|discriminate H].
    assert (Hi : (i < length (seq 0 (length (dataPoints vm))))%nat).
    { apply nth_error_Some. congruence. }
    rewrite length_seq in Hi.
    rewrite (nth_error_nth' _ 0%nat) in E by now rewrite length_seq.
    rewrite seq_nth in E by exact Hi. injection E as <-.
    simpl in H. now injection H. }
  intros i j pi pj Hi Hj.
  rewrite (Hfill _ _ Hi), (Hfill _ _ Hj). apply palette_color_eq.
Qed.

(** ** The ordinal scale *)

Lemma index_get_None (dom : list nat) (x : nat) :
  index_get dom x = None <-> ~ In x dom.
Proof.
  induction dom as [|y t IH]; simpl; [tauto|].
  destruct (Nat.eqb_spec y x) as [->|Hne].
  - split; [discriminate|tauto].
  - destruct (index_get t x); simpl.
    + split; [discriminate|]. intros H. exfalso.
      assert (Hnin : ~ In x t) by tauto.
      apply IH in Hnin. discriminate Hnin.
    + split; [|reflexivity]. intros _ [H|H]; [congruence|].
      now apply (proj1 IH).
Qed.

Lemma index_get_app_seen (dom l : list nat) (x : nat) :
  In x dom -> index_get (dom ++ l) x = index_get dom x.
Proof.
  induction dom as [|y t IH]; simpl; [contradiction|].
  destruct (Nat.eqb_spec y x) as [->|Hne]; [reflexivity|].
  intros [H|H]; [congruence|]. now rewrite IH.
Qed.

Lemma index_get_app_fresh (dom : list nat) (x : nat) :
  ~ In x dom -> index_get (dom ++ [x]) x = Some (S (length dom)).
Proof.
  induction dom as [|y t IH]; simpl; intros H.
  - now rewrite Nat.eqb_refl.
  - destruct (Nat.eqb_spec y x) as [->|Hne]; [tauto|].
    rewrite IH by tauto. reflexivity.
Qed.

Lemma scale_seen (s : ordinal) (x : nat) :
  In x (domain s) -> snd (scale s x) = s.
Proof.
  intros H. unfold scale.
  destruct (index_get (domain s) x) eqn:E; [reflexivity|].
  apply index_get_None in E. contradiction.
Qed.

Lemma scale_fresh_domain (s : ordinal) (x : nat) :
  ~ In x (domain s) ->
  snd (scale s x) = {| domain := domain s ++ [x]; range := range s |}.
Proof.
  intros H. apply index_get_None in H. unfold scale. now rewrite H.
Qed.

(** X13: asking the colour scale again gives the same answer: a call
    with an input returns the colour the call before returned for it
    and leaves the scale as that call left it.  This is why a legend
    square has the colour of its arc. *)
Theorem scale_again (s : ordinal) (x : nat) :
  scale (snd (scale s x)) x = (fst (scale s x), snd (scale s x)).
Proof.
  destruct (in_dec Nat.eq_dec x (domain s)) as [Hin|Hnin].
  - rewrite (scale_seen _ _ Hin) at 1. apply surjective_pairing.
  - rewrite (scale_fresh_domain _ _ Hnin).
    pose proof Hnin as Hnone. apply index_get_None in Hnone.
    unfold scale. cbn [domain range].
    rewrite (index_get_app_fresh _ _ Hnin), Hnone.
    rewrite length_app. cbn [length fst]. do 3 f_equal. lia.
Qed.

(** X14: the scale only ever learns.  A call leaves the range alone
    and the domain as it was, or with the new input added at the end;
    a domain without duplicates stays so; and an input seen before
    keeps, after the call, the colour it had. *)
Theorem scale_learns (s : ordinal) (x : nat) :
  range (snd (scale s x)) = range s /\
  (In x (domain s) -> domain (snd (scale s x)) = domain s) /\
  (~ In x (domain s) -> domain (snd (scale s x)) = domain s ++ [x]) /\
  (NoDup (domain s) -> NoDup (domain (snd (scale s x)))) /\
  (forall y, In y (domain s) ->
     fst (scale (snd (scale s x)) y) = fst (scale s y)).
Proof.
  destruct (in_dec Nat.eq_dec x (domain s)) as [Hin|Hnin].
  - rewrite (scale_seen _ _ Hin). repeat split; tauto.
  - rewrite (scale_fresh_domain _ _ Hnin). cbn [domain range].
    repeat split; try tauto.
    + intros Hnd. apply NoDup_app; [exact Hnd|repeat constructor; simpl; tauto|].
      intros y Hy [<-|[]]. contradiction.
    + intros y Hy. unfold scale. cbn [domain range].
      rewrite (index_get_app_seen _ _ _ Hy).
      destruct (index_get (domain s) y) eqn:E; [reflexivity|].
      apply index_get_None in E. contradiction.
Qed.

(** ** The snapshot with hard-coded data *)

Lemma each_random_seq {A : Type} (random : nat -> R) (l : list A) :
  forall drawn,
    each_random random drawn l =
    (map random (seq drawn (length l)), (length l + drawn)%nat).
Proof.
  induction l as [|x l IH]; intros drawn; simpl; [reflexivity|].
  rewrite IH. do 2 f_equal. lia.
Qed.

(** X16: the snapshot draws its four fixed data points whatever the
    host sends: for every update record it appends one group whose four
    arcs are the arcs the later revision draws for the same data
    points (spans of 36, 72, 108 and 144 degrees), ignores the data
    views, and fills the arcs with the next four numbers of
    [Math.random], in element order.  With no update record it throws
    and leaves the surface and the generator alone. *)
Theorem update_snapshot_draws_fixed_data (random : nat -> R) (drawn : nat)
    (svg : RandomSvgElement) :
  (forall o,
     exists g,
       update_snapshot random drawn svg (Some o) =
         ({| rattr_width := Some (width (viewport o));
             rattr_height := Some (height (viewport o));
             rchildren := rchildren svg ++ [g] |},
          (4 + drawn)%nat, Return tt) /\
       rg_transform g = (width (viewport o) / 2, height (viewport o) / 2) /\
       map rpath_data (rg_paths g) =
         map path_data (paths (donut_of snapshot_data (viewport o))) /\
       map (fun p => span (rpath_data p)) (rg_paths g) =
         [degrees 36; degrees 72; degrees 108; degrees 144] /\
       map rpath_outerRadius (rg_paths g) =
         repeat (Rmin (width (viewport o)) (height (viewport o)) / 2) 4 /\
       map rpath_fill (rg_paths g) =
         [random drawn; random (1 + drawn)%nat; random (2 + drawn)%nat;
          random (3 + drawn)%nat]) /\
  update_snapshot random drawn svg None = (svg, drawn, Throw).
Proof.
  split; [|reflexivity]. intros o.
  unfold update_snapshot. rewrite pie_arcs_defined, each_random_seq.
  rewrite donut_paths_data.
  pose proof (pie_arcs_length (map count snapshot_data)) as Hlen.
  pose proof (pie_arcs_span (map count snapshot_data)) as Hspan.
  rewrite pie_factor_nonzero in Hspan by (unfold d3_sum; simpl; lra).
  destruct (pie_arcs (map count snapshot_data))
    as [|d0 [|d1 [|d2 [|d3 [|d4 l]]]]]; try discriminate Hlen.
  eexists. split; [reflexivity|].
  split; [reflexivity|]. split; [reflexivity|].
  split; [|split; reflexivity].
  change (map span [d0; d1; d2; d3] =
          [degrees 36; degrees 72; degrees 108; degrees 144]).
  rewrite Hspan. unfold d3_sum, tau, degrees; simpl.
  repeat (apply f_equal2; [lra|]). reflexivity.
Qed.
